(** * simple-rpc: route resolution, middleware composition and the
      transport boundary

    A shallow embedding of [Procedure.call], [Router.call] and [Router.use]
    (rpc.ts), of [RPCError] (rpc-error.ts) and of the request handler of
    [startRpcServer] (server.ts), followed by the properties of the
    specification that are settled against them.

    Routers and procedures are mutable JavaScript objects that may be
    referenced from several places, so they live in a store indexed by
    addresses; [Router.call] threads that store.  Middleware and handlers are
    caller-supplied functions: they are represented by the tree of the
    interactions they may have with the dispatcher (calling [next], using the
    response sink, reading or changing the context object, returning,
    throwing).  They are deterministic in the context and the input, and do
    not reach the routers themselves.  A call runs to its end before the next
    one starts; a ghost trace records the stages it enters.

    The constructor of [Router] copies the routes onto the router object
    ([Object.assign(this, routes)]): a route named [routes], [middlewares],
    [call] or [use] replaces the member of that name, and [Router.call] and
    [Router.use] then read the route instead.  The model follows these
    reads.  A [routes] object with an own property named [__proto__], which
    that copy would turn into the prototype of the router, is outside the
    model; [plain] excludes it together with the four member names.

    The response of the transport is followed as far as the listener depends
    on it: whether its head is written, and which calls it refuses by
    throwing. *)

From Stdlib Require Import ZArith String Ascii List Lia.
From stdpp Require Import gmap strings list.

Local Open Scope Z_scope.
Local Open Scope string_scope.

(** ** Values and thrown errors *)

(** JavaScript values, as far as the dispatcher handles them (JSON-like). *)
#[local] Set Warnings "-register-all".
Inductive Value : Type :=
| VUndefined
| VNull
| VBool (b : bool)
| VNum (n : Z)
| VStr (s : string)
| VArr (items : list Value)
| VObj (fields : list (string * Value)).

(** What can be thrown.  [RPCError] is the class of rpc-error.ts; its
    [payload] is [VUndefined] when the constructor is called without one.
    [ZodError] is the failure of the schema capability, [JsError] any other
    thrown error ([TypeError], [SyntaxError], ...). *)
Inductive Exn : Type :=
| RPCError (code : Z) (message : string) (payload : Value)
| ZodError (issues : string)
| JsError (name message : string).

(** The settled state of a promise. *)
Inductive Outcome : Type :=
| Resolved (v : Value)
| Rejected (e : Exn).

(** [err instanceof RPCError]. *)
Definition instanceof_RPCError (e : Exn) : bool :=
  match e with
  | RPCError _ _ _ => true
  | _ => false
  end.

(** ** The response sink and the observable state of one call *)

Inductive SinkCall : Type :=
| CSetHeader (key value : string)
| CStatus (code : Z).

(** Ghost events: which stage of a pipeline was entered, in which order. *)
Inductive Event : Type :=
| EParseInput
| EMiddleware (name : string)
| EHandler
| EParseOutput.

(** The state a call runs in: the content of the context object, the calls
    made on the response sink and the ghost trace. *)
Record Env : Type := mkEnv {
  ctx : Value;
  sink : list SinkCall;
  trace : list Event
}.

Definition log (ev : Event) (e : Env) : Env :=
  mkEnv (ctx e) (sink e) (trace e ++ [ev]).

Definition sink_call (c : SinkCall) (e : Env) : Env :=
  mkEnv (ctx e) (sink e ++ [c]) (trace e).

Definition set_ctx (c : Value) (e : Env) : Env :=
  mkEnv c (sink e) (trace e).

(** ** Middleware and handlers *)

(** The behaviour of a caller-supplied function after it has received
    [(ctx, input, res, next)].  [N] is [unit] for a middleware, which holds
    [next], and [Empty_set] for a handler, which does not.  [CallNext]
    continues with the outcome of [next()], so a middleware can catch a
    failure of the inner chain or replace its result, and can call [next]
    any number of times. *)
Inductive Prog (N : Type) : Type :=
| Ret (v : Value)
| Throw (e : Exn)
| SetHeader (key value : string) (k : Prog N)
| Status (code : Z) (k : Prog N)
| ReadCtx (k : Value -> Prog N)
| WriteCtx (c : Value) (k : Prog N)
| CallNext (n : N) (k : Outcome -> Prog N).

Arguments Ret {N} v.
Arguments Throw {N} e.
Arguments SetHeader {N} key value k.
Arguments Status {N} code k.
Arguments ReadCtx {N} k.
Arguments WriteCtx {N} c k.
Arguments CallNext {N} n k.

(** A computation of the dispatcher over the state of a call. *)
Definition Thunk : Type := Env -> Outcome * Env.

(** Running a behaviour, [next] being what [next()] does. *)
Fixpoint run {N : Type} (p : Prog N) (next : N -> Thunk) (e : Env)
  : Outcome * Env :=
  match p with
  | Ret v => (Resolved v, e)
  | Throw x => (Rejected x, e)
  | SetHeader key value k => run k next (sink_call (CSetHeader key value) e)
  | Status code k => run k next (sink_call (CStatus code) e)
  | ReadCtx k => run (k (ctx e)) next e
  | WriteCtx c k => run k next (set_ctx c e)
  | CallNext n k =>
      let '(o, e') := next n e in
      run (k o) next e'
  end.

(** [Middleware<C>]: a function of [(ctx, input, res, next)].  [mw_name]
    stands for the identity of the function object; it is what the ghost
    trace records. *)
Record Middleware : Type := mkMiddleware {
  mw_name : string;
  mw_body : Value -> Value -> Prog unit
}.

Definition Handler : Type := Value -> Value -> Prog Empty_set.

(** The schema capability: [schema.parse(value)]. *)
Definition Schema : Type := Value -> Outcome.

(** ** Procedure *)

Record Procedure : Type := mkProcedure {
  inputSchema : Schema;
  outputSchema : Schema;
  handler : Handler;
  p_middlewares : list Middleware
}.

Definition no_next (n : Empty_set) : Thunk := match n with end.

(** The innermost thunk: [() => Promise.resolve(this.handler(ctx, parsedInput, res))]. *)
Definition call_handler (h : Handler) (parsedInput : Value) : Thunk :=
  fun e => run (h (ctx e) parsedInput) no_next (log EHandler e).

(** One step of the [reduceRight]:
    [(next, middleware) => () => middleware(ctx, parsedInput, res, next)]. *)
Definition wrap (parsedInput : Value) (middleware : Middleware) (next : Thunk)
  : Thunk :=
  fun e =>
    run (mw_body middleware (ctx e) parsedInput) (fun _ => next)
        (log (EMiddleware (mw_name middleware)) e).

(** [this.middlewares.reduceRight(..., handler thunk)]. *)
Definition compose (mws : list Middleware) (h : Handler) (parsedInput : Value)
  : Thunk :=
  fold_right (wrap parsedInput) (call_handler h parsedInput) mws.

(** [Procedure.call(ctx, input, res)]. *)
Definition Procedure_call (this : Procedure) (input : Value) (e : Env)
  : Outcome * Env :=
  let e1 := log EParseInput e in
  match inputSchema this input with
  | Rejected x => (Rejected x, e1)
  | Resolved parsedInput =>
      let composed := compose (p_middlewares this) (handler this) parsedInput in
      match composed e1 with
      | (Rejected x, e2) => (Rejected x, e2)
      | (Resolved result, e2) => (outputSchema this result, log EParseOutput e2)
      end
  end.

(** ** Dispatch paths *)

(** [path: string | string[]]. *)
Inductive Path : Type :=
| PathStr (s : string)
| PathArr (segments : list string).

(** [s.split(sep)] for a one-character separator: never empty, and the empty
    string gives one empty segment. *)
Fixpoint split (sep : ascii) (s : string) : list string :=
  match s with
  | EmptyString => [EmptyString]
  | String c s' =>
      if Ascii.eqb c sep then EmptyString :: split sep s'
      else match split sep s' with
           | seg :: segs => String c seg :: segs
           | [] => [String c EmptyString]
           end
  end.

(** [parts.join(sep)]. *)
Fixpoint join (sep : string) (parts : list string) : string :=
  match parts with
  | [] => EmptyString
  | [x] => x
  | x :: xs => x +:+ sep +:+ join sep xs
  end.

(** [Array.isArray(path) ? path : path.split(".")]. *)
Definition parts_of (path : Path) : list string :=
  match path with
  | PathArr segments => segments
  | PathStr s => split "." s
  end.

(** The property key [first] is turned into when it indexes [routes], and
    what a template literal prints for it: destructuring an empty array
    leaves [first] undefined. *)
Definition key_of (first : option string) : string :=
  match first with
  | Some s => s
  | None => "undefined"
  end.

(** ** The object store *)

Definition addr : Type := nat.

(** A router object: the own properties of the [routes] object it was built
    from, whose values are references to Procedure and Router objects, and
    the content of the array its field initialiser created
    ([middlewares = []]).  The constructor then copies every route onto the
    router itself, so the members of the object are read through
    [this_middlewares], [lookup_route], [call_shadowed] and [use_shadowed]
    below, not through these fields directly. *)
Record Router : Type := mkRouter {
  routes : gmap string addr;
  r_middlewares : list Middleware
}.

Inductive Obj : Type :=
| OProcedure (p : Procedure)
| ORouter (r : Router).

(** Property names every ordinary object inherits from [Object.prototype];
    each of them reads as a function or an object, neither a Procedure nor a
    Router. *)
Definition Object_prototype : list string :=
  [ "constructor"; "hasOwnProperty"; "isPrototypeOf"; "propertyIsEnumerable";
    "toLocaleString"; "toString"; "valueOf"; "__proto__";
    "__defineGetter__"; "__defineSetter__"; "__lookupGetter__";
    "__lookupSetter__" ].

Definition inherited (key : string) : bool :=
  existsb (String.eqb key) Object_prototype.

(** The result of the property read [this.routes[first]]. *)
Inductive Target : Type :=
| TUndefined
| TRef (a : addr)
| TBuiltin.

(** [this.routes[first]] on the object literal given to [createRouter]: an
    own property if there is one, else what the prototype chain has. *)
Definition routes_get (rs : gmap string addr) (first : option string) : Target :=
  match rs !! key_of first with
  | Some a => TRef a
  | None => if inherited (key_of first) then TBuiltin else TUndefined
  end.

Definition with_middlewares (p : Procedure) (mws : list Middleware) : Procedure :=
  mkProcedure (inputSchema p) (outputSchema p) (handler p) mws.

Definition not_found (parts : list string) : Exn :=
  RPCError 404 ("Route '" +:+ join "." parts +:+ "' not found") VUndefined.

Definition not_callable (parts : list string) : Exn :=
  RPCError 400 ("Route '" +:+ join "." parts +:+ "' is not callable") VUndefined.

Definition invalid_route (first : option string) : Exn :=
  RPCError 400 ("Invalid route at '" +:+ key_of first +:+ "'") VUndefined.

(** [procedure().input(input).output(output).implement(fn)]: a procedure
    with no middleware of its own. *)
Definition implement (input output : Schema) (fn : Handler) : Procedure :=
  mkProcedure input output fn [].

(** [createRouter(routes)], that is [new Router(routes)]: the member
    [routes] is set to the object given, [middlewares] to a new empty array,
    and [Object.assign(this, routes)] then copies every route onto the
    router.  The record keeps the routes and the array; what the copy has
    overwritten is accounted for by [this_middlewares], [lookup_route],
    [call_shadowed] and [use_shadowed], through which every member is
    read. *)
Definition createRouter (rs : gmap string addr) : Router :=
  mkRouter rs [].

(** ** Router *)

(** A [TypeError] raised by the engine inside the dispatcher (a member that
    is not iterable, a member that is not a function).  Its message depends
    on the engine and is not modelled. *)
Definition type_error : Exn := JsError "TypeError" "".

(** What [this.middlewares] reads on a router: the array, unless a route
    named [middlewares] was copied over it. *)
Inductive Stored : Type :=
| SArray (mws : list Middleware)
| SObject (a : addr).

Definition this_middlewares (r : Router) : Stored :=
  match routes r !! "middlewares" with
  | Some a => SObject a
  | None => SArray (r_middlewares r)
  end.

(** [router.call] and [router.use] are the methods of the class unless a
    route of that name was copied onto the object. *)
Definition call_shadowed (r : Router) : bool :=
  bool_decide (is_Some (routes r !! "call")).

Definition use_shadowed (r : Router) : bool :=
  bool_decide (is_Some (routes r !! "use")).

(** The members of a Procedure object and of a Router object, own or from
    their class: each reads as a schema, a function, an array or a plain
    object, neither a Procedure nor a Router. *)
Definition Procedure_members : list string :=
  [ "inputSchema"; "outputSchema"; "handler"; "middlewares"; "call" ].

Definition Router_members : list string :=
  [ "routes"; "middlewares"; "use"; "call" ].

Definition member_of (names : list string) (key : string) : Target :=
  if existsb (String.eqb key) (names ++ Object_prototype)
  then TBuiltin else TUndefined.

(** [this.routes[first]].  [this.routes] is the [routes] object unless a
    route named [routes] was copied over it; it then is that Procedure or
    Router object, whose own and inherited properties are looked up (a
    Router object holds its own routes as properties). *)
Definition lookup_route (h : gmap addr Obj) (r : Router)
    (first : option string) : option Target :=
  match routes r !! "routes" with
  | None => Some (routes_get (routes r) first)
  | Some a =>
      match h !! a with
      | Some (OProcedure _) => Some (member_of Procedure_members (key_of first))
      | Some (ORouter c) =>
          Some (match routes c !! key_of first with
                | Some b => TRef b
                | None => member_of Router_members (key_of first)
                end)
      | None => None
      end
  end.

(** [Router.call(ctx, path, input, res)], the method, run on the router
    object at [this].  The recursion follows the source; [fuel] bounds its
    depth, which the length of the path bounds unless a route is named
    ["undefined"].  [None] is for exhausted fuel and for a store in which
    [this] is not a router or a route refers to no object. *)
Fixpoint Router_call (fuel : nat) (h : gmap addr Obj) (this : addr)
    (path : Path) (input : Value) (e : Env)
  : option (Outcome * gmap addr Obj * Env) :=
  match fuel with
  | O => None
  | S fuel' =>
      match h !! this with
      | Some (ORouter r) =>
          let parts := parts_of path in
          let first := head parts in
          let rest := tail parts in
          match lookup_route h r first with
          | None => None
          | Some TUndefined => Some (Rejected (not_found parts), h, e)
          | Some TBuiltin => Some (Rejected (invalid_route first), h, e)
          | Some (TRef target) =>
              match h !! target with
              | Some (OProcedure p) =>
                  match rest with
                  | _ :: _ => Some (Rejected (not_callable parts), h, e)
                  | [] =>
                      (* target.middlewares = [...this.middlewares, ...target.middlewares] *)
                      match this_middlewares r with
                      | SObject _ => Some (Rejected type_error, h, e)
                      | SArray mws =>
                          let p' :=
                            with_middlewares p (mws ++ p_middlewares p) in
                          let '(o, e') := Procedure_call p' input e in
                          Some (o, <[target := OProcedure p']> h, e')
                      end
                  end
              | Some (ORouter c) =>
                  (* target.middlewares.unshift(...this.middlewares) *)
                  match this_middlewares c, this_middlewares r with
                  | SArray cmws, SArray mws =>
                      let c' := mkRouter (routes c) (mws ++ cmws) in
                      let h1 := <[target := ORouter c']> h in
                      (* target.call(ctx, rest, input, res) *)
                      if call_shadowed c then Some (Rejected type_error, h1, e)
                      else Router_call fuel' h1 target (PathArr rest) input e
                  | _, _ => Some (Rejected type_error, h, e)
                  end
              | None => None
              end
          end
      | _ => None
      end
  end.

(** The expression [router.call(ctx, path, input, res)] on the router at
    [this]: the method, unless a route named [call] shadows it. *)
Definition invoke_call (fuel : nat) (h : gmap addr Obj) (this : addr)
    (path : Path) (input : Value) (e : Env)
  : option (Outcome * gmap addr Obj * Env) :=
  match h !! this with
  | Some (ORouter r) =>
      if call_shadowed r then Some (Rejected type_error, h, e)
      else Router_call fuel h this path input e
  | _ => None
  end.

(** [Router.use(mw)], the method, run on the router at [this]:
    [this.middlewares.push(mw)] throws when [this.middlewares] is not the
    array.  [inl] is the error thrown, [inr] the store after the call (which
    returns [this]). *)
Definition Router_use (h : gmap addr Obj) (this : addr) (mw : Middleware)
  : option (Exn + gmap addr Obj) :=
  match h !! this with
  | Some (ORouter r) =>
      match this_middlewares r with
      | SArray mws =>
          Some (inr (<[this := ORouter (mkRouter (routes r) (mws ++ [mw]))]> h))
      | SObject _ => Some (inl type_error)
      end
  | _ => None
  end.

(** The expression [router.use(mw)]: the method, unless a route named [use]
    shadows it. *)
Definition invoke_use (h : gmap addr Obj) (this : addr) (mw : Middleware)
  : option (Exn + gmap addr Obj) :=
  match h !! this with
  | Some (ORouter r) =>
      if use_shadowed r then Some (inl type_error) else Router_use h this mw
  | _ => None
  end.

(** The stored [middlewares] of the object at [a], by name. *)
Definition stored (h : gmap addr Obj) (a : addr) : option (list string) :=
  match h !! a with
  | Some (OProcedure p) => Some (map mw_name (p_middlewares p))
  | Some (ORouter r) => Some (map mw_name (r_middlewares r))
  | None => None
  end.

(** The same call issued [n] times in sequence, each with a fresh context
    and sink; the outcome and ghost trace of every call are collected. *)
Fixpoint call_times (n : nat) (fuel : nat) (h : gmap addr Obj) (this : addr)
    (path : Path) (input : Value) (c : Value)
  : option (list (Outcome * list Event) * gmap addr Obj) :=
  match n with
  | O => Some ([], h)
  | S n' =>
      match Router_call fuel h this path input (mkEnv c [] []) with
      | Some (o, h', e') =>
          match call_times n' fuel h' this path input c with
          | Some (rs, h'') => Some ((o, trace e') :: rs, h'')
          | None => None
          end
      | None => None
      end
  end.

(** ** The transport boundary (request handler of [startRpcServer]) *)

(** What the handler looks at in a request: the method, the path name of the
    URL, and the outcome of reading the body and applying
    [JSON.parse(body || "{}")] to it. *)
Record Request : Type := mkRequest {
  req_method : string;
  req_pathname : string;
  req_json : Outcome
}.

(** The calls made on the [ServerResponse]; [REnd] holds the value given to
    [JSON.stringify]. *)
Inductive ResCall : Type :=
| RSetHeader (key value : string)
| RWriteHead (code : Z) (headers : list (string * string))
| REnd (body : Value).

Definition json_header : list (string * string) :=
  [("Content-Type", "application/json")].

(** [responseWrapper]: [setHeader] and [status] forwarded to the response. *)
Definition forward (c : SinkCall) : ResCall :=
  match c with
  | CSetHeader key value => RSetHeader key value
  | CStatus code => RWriteHead code []
  end.

Fixpoint get_field (fields : list (string * Value)) (key : string) : Value :=
  match fields with
  | [] => VUndefined
  | (k, v) :: fields' => if String.eqb k key then v else get_field fields' key
  end.

(** [const { input, context } = value]. *)
Definition destructure (v : Value) : Exn + Value * Value :=
  match v with
  | VUndefined | VNull =>
      inl (JsError "TypeError" "Cannot destructure property 'input'")
  | VObj fields => inr (get_field fields "input", get_field fields "context")
  | _ => inr (VUndefined, VUndefined)
  end.

Definition falsy (v : Value) : bool :=
  match v with
  | VUndefined | VNull | VBool false | VNum 0 | VStr EmptyString => true
  | _ => false
  end.

(** [context || {}]. *)
Definition or_empty_object (context : Value) : Value :=
  if falsy context then VObj [] else context.

(** [payload ?? null]. *)
Definition or_null (payload : Value) : Value :=
  match payload with
  | VUndefined | VNull => VNull
  | _ => payload
  end.

(** [const [, , ...pathParts] = url.pathname.split("/"); pathParts.join(".")]. *)
Definition dispatch_path (pathname : string) : string :=
  join "." (skipn 2 (split "/" pathname)).

(** *** What the [ServerResponse] accepts *)

(** [res.writeHead(code)] throws a [RangeError] unless [100 <= code <= 999]. *)
Definition valid_status (code : Z) : bool :=
  (100 <=? code)%Z && (code <=? 999)%Z.

(** The characters of a header name: those of an HTTP token. *)
Definition is_tchar (c : ascii) : bool :=
  let n := nat_of_ascii c in
  ((48 <=? n)%nat && (n <=? 57)%nat)
  || ((65 <=? n)%nat && (n <=? 90)%nat)
  || ((97 <=? n)%nat && (n <=? 122)%nat)
  || existsb (Ascii.eqb c)
       [ "!"; "#"; "$"; "%"; "&"; "'"; "*"; "+"; "-"; "."; "^"; "_"; "`"; "|";
         "~" ]%char.

Definition valid_header_name (key : string) : bool :=
  negb (String.eqb key "") && forallb is_tchar (list_ascii_of_string key).

(** The characters of a header value: tab, the printable ASCII characters
    and the characters from 128 on. *)
Definition is_vchar (c : ascii) : bool :=
  let n := nat_of_ascii c in
  (n =? 9)%nat || ((32 <=? n)%nat && (n <=? 126)%nat) || (128 <=? n)%nat.

Definition valid_header_value (value : string) : bool :=
  forallb is_vchar (list_ascii_of_string value).

(** Whether the response, its head written or not ([sent]), takes the calls
    the sink forwards, one after the other: [setHeader] and [writeHead] throw
    once the head is written, [setHeader] throws for a name or value that is
    not valid, [writeHead] for a code that is not. *)
Fixpoint accepted (sent : bool) (calls : list SinkCall) : bool :=
  match calls with
  | [] => true
  | CSetHeader key value :: rest =>
      negb sent && valid_header_name key && valid_header_value value
      && accepted sent rest
  | CStatus code :: rest =>
      negb sent && valid_status code && accepted true rest
  end.

(** Whether the sink's [status] has written the head. *)
Definition head_written (calls : list SinkCall) : bool :=
  existsb (fun c => match c with CStatus _ => true | _ => false end) calls.

(** The end of the [try] block, [res.setHeader("Content-Type", ...)] and
    [res.end(JSON.stringify({ result }))], on a response whose head is
    written or not ([sent]).  Once the head is written [setHeader] throws,
    the [catch] block takes over and its [writeHead] throws in turn: the
    listener fails without any further call on the response. *)
Definition on_success (sent : bool) (result : Value) : list ResCall :=
  if sent then []
  else [ RSetHeader "Content-Type" "application/json";
         REnd (VObj [("result", result)]) ].

(** The [catch] block: [httpErr] is [err] when it is an [RPCError], and
    [new RPCError(500, "Internal server error")] otherwise.  Its
    [res.writeHead(httpErr.code, ...)] throws when the head is written
    already or the code is not a valid status; the listener then fails and
    [res.end] is never called. *)
Definition on_failure (sent : bool) (err : Exn) : list ResCall :=
  let '(code, message, payload) :=
    match err with
    | RPCError code message payload => (code, message, payload)
    | _ => (500, "Internal server error", VUndefined)
    end in
  if sent || negb (valid_status code) then []
  else [ RWriteHead code json_header;
         REnd (VObj [("error", VObj [("code", VNum code);
                                     ("message", VStr message);
                                     ("payload", or_null payload)])]) ].

(** The [try] block up to and including [await router.call(...)]: the
    outcome, the store and the calls made on the sink. *)
Definition dispatch (fuel : nat) (h : gmap addr Obj) (router : addr)
    (req : Request)
  : option (Outcome * gmap addr Obj * list SinkCall) :=
  match req_json req with
  | Rejected x => Some (Rejected x, h, [])
  | Resolved v =>
      match destructure v with
      | inl x => Some (Rejected x, h, [])
      | inr (input, context) =>
          match invoke_call fuel h router
                  (PathStr (dispatch_path (req_pathname req))) input
                  (mkEnv (or_empty_object context) [] []) with
          | Some (o, h', e') => Some (o, h', sink e')
          | None => None
          end
      end
  end.

(** The request listener: the calls that take effect on the response, and
    the store.  A sink call that the response refuses throws into the
    middleware or handler that made it; the behaviours of [Prog] have no
    such failure, so a dispatch whose sink calls are not all [accepted] is
    outside the model ([None], as for exhausted fuel). *)
Definition handle_request (fuel : nat) (h : gmap addr Obj) (router : addr)
    (req : Request)
  : option (list ResCall * gmap addr Obj) :=
  if negb (String.eqb (req_method req) "POST")
     || negb (String.prefix "/rpc/" (req_pathname req))
  then
    Some ([ RWriteHead 404 json_header;
            REnd (VObj [("error", VObj [("code", VNum 404);
                                        ("message", VStr "Not Found")])]) ], h)
  else
    match dispatch fuel h router req with
    | Some (o, h', calls) =>
        if accepted false calls then
          match o with
          | Resolved result =>
              Some ((map forward calls
                       ++ on_success (head_written calls) result)%list, h')
          | Rejected err =>
              Some ((map forward calls
                       ++ on_failure (head_written calls) err)%list, h')
          end
        else None
    | None => None
    end.

(** ** Classes of behaviours *)

(** [settles p o]: whatever the context holds, [p] settles with [o] (returns
    the value of [Resolved], throws the error of [Rejected]) without ever
    calling [next]; it may use the response sink and the context. *)
Inductive settles {N : Type} : Prog N -> Outcome -> Prop :=
| settles_Ret v : settles (Ret v) (Resolved v)
| settles_Throw x : settles (Throw x) (Rejected x)
| settles_SetHeader key value k o :
    settles k o -> settles (SetHeader key value k) o
| settles_Status code k o : settles k o -> settles (Status code k) o
| settles_ReadCtx k o : (forall c, settles (k c) o) -> settles (ReadCtx k) o
| settles_WriteCtx c k o : settles k o -> settles (WriteCtx c k) o.

(** [transparent p]: [p] calls [next()] exactly once and settles the way
    [next()] did ([return next()], or [const r = await next(); ...; return r]
    with a failure left uncaught or thrown again). *)
Inductive transparent : Prog unit -> Prop :=
| transparent_CallNext k :
    (forall o, settles (k o) o) -> transparent (CallNext tt k)
| transparent_SetHeader key value k :
    transparent k -> transparent (SetHeader key value k)
| transparent_Status code k : transparent k -> transparent (Status code k)
| transparent_ReadCtx k : (forall c, transparent (k c)) -> transparent (ReadCtx k)
| transparent_WriteCtx c k : transparent k -> transparent (WriteCtx c k).

(** A middleware that is transparent on a given (parsed) input. *)
Definition transparent_on (parsedInput : Value) (mw : Middleware) : Prop :=
  forall c, transparent (mw_body mw c parsedInput).

Definition names (mws : list Middleware) : list Event :=
  map (fun mw => EMiddleware (mw_name mw)) mws.

(** ** The shape of a store *)

(** What route resolution depends on: the kind of an object and, for a
    router, its routes. *)
Inductive Kind : Type :=
| KProcedure
| KRouter (rs : gmap string addr).

Definition kind (o : Obj) : Kind :=
  match o with
  | OProcedure _ => KProcedure
  | ORouter r => KRouter (routes r)
  end.

Definition shape (h : gmap addr Obj) (a : addr) : option Kind :=
  kind <$> h !! a.

Definition same_shape (h h' : gmap addr Obj) : Prop :=
  forall a, shape h a = shape h' a.


(** The stored [middlewares] of the object at [a]. *)
Definition middlewares_at (h : gmap addr Obj) (a : addr) : list Middleware :=
  match h !! a with
  | Some (OProcedure p) => p_middlewares p
  | Some (ORouter r) => r_middlewares r
  | None => []
  end.

(** [walks h this parts visited target]: [parts] leads from the router at
    [this] through the routers [visited] (the first of which is [this]), one
    per segment, to the procedure at [target], with no segment left. *)
Inductive walks (h : gmap addr Obj)
  : addr -> list string -> list addr -> addr -> Prop :=
| walks_procedure this first rs target :
    shape h this = Some (KRouter rs) ->
    rs !! first = Some target ->
    shape h target = Some KProcedure ->
    walks h this [first] [this] target
| walks_router this first rest rs child visited target :
    shape h this = Some (KRouter rs) ->
    rs !! first = Some child ->
    walks h child rest visited target ->
    walks h this (first :: rest) (this :: visited) target.


(** ** Sample schemas, middleware, procedures and routers *)

Definition any_schema : Schema := fun v => Resolved v.

(** [z.object({ [key]: z.string() })]: unknown keys are stripped. *)
Definition string_field_schema (key : string) : Schema := fun v =>
  match v with
  | VObj fields =>
      match get_field fields key with
      | VStr s => Resolved (VObj [(key, VStr s)])
      | _ => Rejected (ZodError "Expected string")
      end
  | _ => Rejected (ZodError "Expected object")
  end.

Definition return_next : Outcome -> Prog unit := fun o =>
  match o with
  | Resolved v => Ret v
  | Rejected x => Throw x
  end.

(** [async (ctx, input, res, next) => next()]. *)
Definition passthrough (name : string) : Middleware :=
  mkMiddleware name (fun _ _ => CallNext tt return_next).


(** [async () => "denied"]. *)
Definition deny : Middleware :=
  mkMiddleware "deny" (fun _ _ => Ret (VStr "denied")).


(** The handler of the README's test:
    [async (ctx, input) => ({ result: `Echo: ${input.message}` })]. *)
Definition echo_handler : Handler := fun _ input =>
  match input with
  | VObj fields =>
      match get_field fields "message" with
      | VStr m => Ret (VObj [("result", VStr ("Echo: " +:+ m))])
      | _ => Ret (VObj [("result", VStr "Echo: undefined")])
      end
  | _ => Throw (JsError "TypeError" "Cannot read properties")
  end.

Definition echo : Procedure :=
  implement (string_field_schema "message") (string_field_schema "result")
            echo_handler.

Definition ok_handler : Handler := fun _ _ => Ret (VStr "ok").

Definition hello : Value := VObj [("message", VStr "Hello World")].

Definition env0 : Env := mkEnv (VObj []) [] [].

(** [createRouter({ echo })] at address 1, the router of the README's test. *)
Definition h_test : gmap addr Obj :=
  <[1%nat := ORouter (createRouter {[ "echo" := 2%nat ]})]>
    (<[2%nat := OProcedure echo]> ∅).

(** [createRouter({ echo }).use(A)]. *)
Definition h_echo : gmap addr Obj :=
  <[1%nat := ORouter (mkRouter {[ "echo" := 2%nat ]} [passthrough "A"])]>
    (<[2%nat := OProcedure echo]> ∅).

(** [createRouter({ v1: createRouter({ get }).use(B) }).use(A)], with [C] in
    the [middlewares] of the procedure [get]; the outer router is at
    address 1, the inner one at 2, the procedure at 3. *)
Definition h_nested : gmap addr Obj :=
  <[1%nat := ORouter (mkRouter {[ "v1" := 2%nat ]} [passthrough "A"])]>
    (<[2%nat := ORouter (mkRouter {[ "get" := 3%nat ]} [passthrough "B"])]>
       (<[3%nat := OProcedure
                     (mkProcedure any_schema any_schema ok_handler
                                  [passthrough "C"])]> ∅)).


(** A procedure whose only middleware answers without calling [next]. *)
Definition denied : Procedure :=
  mkProcedure any_schema any_schema ok_handler [deny].

(** The same, with the output schema [z.object({ result: z.string() })]. *)
Definition typed_denied : Procedure :=
  mkProcedure any_schema (string_field_schema "result") ok_handler [deny].


(** What a caller observes of a call: how it settled and the ghost trace. *)
Definition observe (r : option (Outcome * gmap addr Obj * Env))
  : option (Outcome * list Event) :=
  match r with
  | Some (o, _, e) => Some (o, trace e)
  | None => None
  end.

(** The stored [middlewares] of the object at [a] once a call has settled. *)
Definition stored_after (r : option (Outcome * gmap addr Obj * Env)) (a : addr)
  : option (list string) :=
  match r with
  | Some (_, h', _) => stored h' a
  | None => None
  end.


(** [n] copies of a list, one after the other. *)
Fixpoint copies {A : Type} (n : nat) (l : list A) : list A :=
  match n with
  | O => []
  | S n' => l ++ copies n' l
  end.

(** ** Characters of a segment *)

(** [s.includes(c)] for a one-character [c]. *)
Fixpoint has_char (c : ascii) (s : string) : bool :=
  match s with
  | EmptyString => false
  | String c' s' => Ascii.eqb c' c || has_char c s'
  end.

(** ** What a call may change in the store *)

Definition obj_middlewares (o : Obj) : list Middleware :=
  match o with
  | OProcedure p => p_middlewares p
  | ORouter r => r_middlewares r
  end.

(** [grows o o']: [o'] is [o] with middleware put in front of its stored
    list, and nothing else changed. *)
Definition grows (o o' : Obj) : Prop :=
  match o, o' with
  | OProcedure p, OProcedure p' =>
      inputSchema p = inputSchema p' /\ outputSchema p = outputSchema p'
      /\ handler p = handler p'
  | ORouter r, ORouter r' => routes r = routes r'
  | _, _ => False
  end
  /\ exists added, obj_middlewares o' = (added ++ obj_middlewares o)%list.

(** [frame h h']: the same addresses hold objects, each grown. *)
Definition frame (h h' : gmap addr Obj) : Prop :=
  forall a,
    match h !! a, h' !! a with
    | Some o, Some o' => grows o o'
    | None, None => True
    | _, _ => False
    end.

(** Every route refers to an object of the store. *)
Definition closed (h : gmap addr Obj) : Prop :=
  forall a rs key target,
    shape h a = Some (KRouter rs) -> rs !! key = Some target ->
    is_Some (shape h target).

(** No router has a route named ["undefined"]. *)
Definition no_undefined_route (h : gmap addr Obj) : Prop :=
  forall a rs, shape h a = Some (KRouter rs) -> rs !! "undefined" = None.

(** ** More sample stores, and registration in sequence *)

(** [createRouter({ undefined: echo })]. *)
Definition h_undefined : gmap addr Obj :=
  <[1%nat := ORouter (createRouter {[ "undefined" := 2%nat ]})]>
    (<[2%nat := OProcedure echo]> ∅).

(** [router.use(mw1).use(mw2)...]: each [use] returns the router; the first
    error thrown ends the chain. *)
Fixpoint Router_uses (h : gmap addr Obj) (this : addr)
    (mws : list Middleware) : option (Exn + gmap addr Obj) :=
  match mws with
  | [] => Some (inr h)
  | mw :: rest =>
      match invoke_use h this mw with
      | Some (inr h') => Router_uses h' this rest
      | other => other
      end
  end.

(** ** The traces of a chain, and two more middleware *)

(** The traces a chain of middleware around a handler can leave: the entry
    of the outermost middleware, then the traces of as many runs of what it
    encloses as it makes calls of [next()]. *)
Fixpoint chain_traces (mws : list Middleware) (t : list Event) : Prop :=
  match mws with
  | [] => t = [EHandler]
  | mw :: rest =>
      exists runs,
        Forall (chain_traces rest) runs
        /\ t = EMiddleware (mw_name mw) :: concat runs
  end.

(** [async (ctx, input, res, next) => { await next(); return next() }]. *)
Definition twice (name : string) : Middleware :=
  mkMiddleware name
    (fun _ _ => CallNext tt (fun o =>
       match o with
       | Resolved _ => CallNext tt return_next
       | Rejected x => Throw x
       end)).

(** A middleware that leaves [c] as the content of the context object and
    goes on: [async (ctx, input, res, next) => { ...; return next() }]. *)
Definition set_context (name : string) (c : Value) : Middleware :=
  mkMiddleware name (fun _ _ => WriteCtx c (CallNext tt return_next)).

(** [async (ctx) => { if (typeof ctx.user !== "string") throw new RPCError(401, ...); return ctx.user }]. *)
Definition whoami_handler : Handler := fun c _ =>
  match c with
  | VObj fields =>
      match get_field fields "user" with
      | VStr user => Ret (VStr user)
      | _ => Throw (RPCError 401 "Authentication required" VUndefined)
      end
  | _ => Throw (RPCError 401 "Authentication required" VUndefined)
  end.

(** A procedure behind a logger and a middleware that puts the user into
    the context. *)
Definition profile : Procedure :=
  mkProcedure any_schema any_schema whoami_handler
    [passthrough "log"; set_context "auth" (VObj [("user", VStr "ada")])].

(** ** The gate of the transport *)

(** [method !== "POST" || !url.pathname.startsWith("/rpc/")]. *)
Definition outside_rpc (req : Request) : bool :=
  negb (String.eqb (req_method req) "POST")
  || negb (String.prefix "/rpc/" (req_pathname req)).

(** The body of the transport's own answer to a request outside [/rpc/]. *)
Definition not_found_body : Value :=
  VObj [("error", VObj [("code", VNum 404); ("message", VStr "Not Found")])].


(** ** Routers whose route names leave the members of the object alone *)

(** No route is named as a member of the router object, nor [__proto__]. *)
Definition plain_routes (rs : gmap string addr) : Prop :=
  rs !! "routes" = None /\ rs !! "middlewares" = None
  /\ rs !! "call" = None /\ rs !! "use" = None /\ rs !! "__proto__" = None.

Definition plain (r : Router) : Prop := plain_routes (routes r).

(** Every router of the store is plain. *)
Definition plain_store (h : gmap addr Obj) : Prop :=
  forall a rs, shape h a = Some (KRouter rs) -> plain_routes rs.


(** ** Behaviours in one run *)

(** What a part of a call does from one state of the call: how it settles,
    and in which state. *)
Definition Step : Type := Env -> Outcome -> Env -> Prop.

(** [finishes p e o e']: run from the state [e], [p] settles with [o] in the
    state [e'] without calling [next]. *)
Inductive finishes {N : Type} : Prog N -> Step :=
| finishes_Ret v e : finishes (Ret v) e (Resolved v) e
| finishes_Throw x e : finishes (Throw x) e (Rejected x) e
| finishes_SetHeader key value k e o e' :
    finishes k (sink_call (CSetHeader key value) e) o e' ->
    finishes (SetHeader key value k) e o e'
| finishes_Status code k e o e' :
    finishes k (sink_call (CStatus code) e) o e' ->
    finishes (Status code k) e o e'
| finishes_ReadCtx k e o e' :
    finishes (k (ctx e)) e o e' -> finishes (ReadCtx k) e o e'
| finishes_WriteCtx c k e o e' :
    finishes k (set_ctx c e) o e' -> finishes (WriteCtx c k) e o e'.

(** [arrives p e e1 k]: run from the state [e], [p] comes to a call of
    [next()] in the state [e1], without an earlier one, and will go on as [k]
    with its outcome. *)
Inductive arrives : Prog unit -> Env -> Env -> (Outcome -> Prog unit) -> Prop :=
| arrives_CallNext k e : arrives (CallNext tt k) e e k
| arrives_SetHeader key value p e e1 k :
    arrives p (sink_call (CSetHeader key value) e) e1 k ->
    arrives (SetHeader key value p) e e1 k
| arrives_Status code p e e1 k :
    arrives p (sink_call (CStatus code) e) e1 k ->
    arrives (Status code p) e e1 k
| arrives_ReadCtx kr e e1 k :
    arrives (kr (ctx e)) e e1 k -> arrives (ReadCtx kr) e e1 k
| arrives_WriteCtx c p e e1 k :
    arrives p (set_ctx c e) e1 k -> arrives (WriteCtx c p) e e1 k.

(** [passes_through parsedInput inner mws]: entered one after the other,
    each middleware of [mws], in the state and with the context it is
    entered in, calls [next()] once and settles with the outcome of that
    call; innermost, [inner] takes place. *)
Inductive passes_through (parsedInput : Value) (inner : Step)
  : list Middleware -> Step :=
| passes_nil e o e' : inner e o e' -> passes_through parsedInput inner [] e o e'
| passes_cons mw mws e e1 k o e2 e3 :
    arrives (mw_body mw (ctx e) parsedInput)
            (log (EMiddleware (mw_name mw)) e) e1 k ->
    passes_through parsedInput inner mws e1 o e2 ->
    finishes (k o) e2 o e3 ->
    passes_through parsedInput inner (mw :: mws) e o e3.

(** The handler, called in a state of the call. *)
Definition handler_step (hd : Handler) (parsedInput : Value) : Step :=
  fun e o e' => call_handler hd parsedInput e = (o, e').

(** The middleware [mw], entered in a state of the call, settles without
    calling [next()]. *)
Definition cut_step (parsedInput : Value) (mw : Middleware) : Step :=
  fun e o e' =>
    finishes (mw_body mw (ctx e) parsedInput)
             (log (EMiddleware (mw_name mw)) e) o e'.

(** [exec inner p]: a run of [p], whatever it does, in which every call of
    [next()] takes place as [inner]. *)
Inductive exec (inner : Step) : Prog unit -> Step :=
| exec_Ret v e : exec inner (Ret v) e (Resolved v) e
| exec_Throw x e : exec inner (Throw x) e (Rejected x) e
| exec_SetHeader key value k e o e' :
    exec inner k (sink_call (CSetHeader key value) e) o e' ->
    exec inner (SetHeader key value k) e o e'
| exec_Status code k e o e' :
    exec inner k (sink_call (CStatus code) e) o e' ->
    exec inner (Status code k) e o e'
| exec_ReadCtx k e o e' :
    exec inner (k (ctx e)) e o e' -> exec inner (ReadCtx k) e o e'
| exec_WriteCtx c k e o e' :
    exec inner k (set_ctx c e) o e' -> exec inner (WriteCtx c k) e o e'
| exec_CallNext k e o1 e1 o e' :
    inner e o1 e1 -> exec inner (k o1) e1 o e' ->
    exec inner (CallNext tt k) e o e'.

(** A run of the chain [mws] around [inner]. *)
Fixpoint chain_exec (parsedInput : Value) (inner : Step)
    (mws : list Middleware) : Step :=
  match mws with
  | [] => inner
  | mw :: rest =>
      fun e o e' =>
        exec (chain_exec parsedInput inner rest)
             (mw_body mw (ctx e) parsedInput)
             (log (EMiddleware (mw_name mw)) e) o e'
  end.

(** ** Further samples *)

(** The README's [authMiddleware], with the token read from the context:
    no token, [RPCError(401, "Authentication required")]; else the user is
    put into the context and [next()] is returned. *)
Definition authMiddleware : Middleware :=
  mkMiddleware "authMiddleware" (fun c _ =>
    match c with
    | VObj fields =>
        match get_field fields "token" with
        | VStr token =>
            WriteCtx (VObj (("user", VStr token) :: fields))
                     (CallNext tt return_next)
        | _ => Throw (RPCError 401 "Authentication required" VUndefined)
        end
    | _ => Throw (RPCError 401 "Authentication required" VUndefined)
    end).

(** A cache in front of the handler: it answers itself when the context
    holds a cached value, and calls [next()] otherwise. *)
Definition cacheMiddleware : Middleware :=
  mkMiddleware "cache" (fun c _ =>
    match c with
    | VObj fields =>
        match get_field fields "cached" with
        | VUndefined => CallNext tt return_next
        | v => Ret v
        end
    | _ => CallNext tt return_next
    end).

(** A procedure behind a logger, [authMiddleware] and one more middleware,
    whose handler returns the user of the context. *)
Definition account : Procedure :=
  mkProcedure any_schema any_schema whoami_handler
              [passthrough "log"; authMiddleware; passthrough "inner"].

(** A procedure behind a logger, the cache and one more middleware. *)
Definition cached : Procedure :=
  mkProcedure any_schema any_schema ok_handler
              [passthrough "log"; cacheMiddleware; passthrough "inner"].

Definition with_token : Env := mkEnv (VObj [("token", VStr "ada")]) [] [].

Definition with_cache : Env := mkEnv (VObj [("cached", VStr "hit")]) [] [].

(** [createRouter({ routes: echo })]: the route is copied over the
    [routes] member of the router. *)
Definition h_routes : gmap addr Obj :=
  <[1%nat := ORouter (createRouter {[ "routes" := 2%nat ]})]>
    (<[2%nat := OProcedure echo]> ∅).

(** [createRouter({ routes: createRouter({ "": echo }) })]. *)
Definition h_routes_router : gmap addr Obj :=
  <[1%nat := ORouter (createRouter {[ "routes" := 2%nat ]})]>
    (<[2%nat := ORouter (createRouter {[ "" := 3%nat ]})]>
       (<[3%nat := OProcedure echo]> ∅)).

(** [createRouter({ call: echo })] and
    [createRouter({ middlewares: echo, echo })]: routes copied over the
    [call] method and over the [middlewares] array of the router. *)
Definition h_call : gmap addr Obj :=
  <[1%nat := ORouter (createRouter {[ "call" := 2%nat ]})]>
    (<[2%nat := OProcedure echo]> ∅).

Definition h_middlewares : gmap addr Obj :=
  <[1%nat := ORouter (createRouter (<[ "middlewares" := 2%nat ]>
                                      {[ "echo" := 2%nat ]}))]>
    (<[2%nat := OProcedure echo]> ∅).

(** [async (ctx, input, res) => { res.status(201); return "created" }], as
    the route [create] of a router. *)
Definition created_handler : Handler := fun _ _ =>
  Status 201 (Ret (VStr "created")).

Definition h_created : gmap addr Obj :=
  <[1%nat := ORouter (createRouter {[ "create" := 2%nat ]})]>
    (<[2%nat := OProcedure
                  (mkProcedure any_schema any_schema created_handler [])]> ∅).

(** What a path is answered with by a router whose [routes] member is a
    Procedure: its segments are looked up among the properties of the
    procedure object. *)
Definition procedure_property (parts : list string) : Exn :=
  match member_of Procedure_members (key_of (head parts)) with
  | TUndefined => not_found parts
  | _ => invalid_route (head parts)
  end.

(** * Properties *)

(** ** Paths *)

Lemma split_nonempty sep s : split sep s <> [].
Proof.
  destruct s as [|c s]; simpl; [discriminate|].
  destruct (Ascii.eqb c sep); [discriminate|].
  destruct (split sep s); discriminate.
Qed.

(** The empty string splits into one empty segment. *)
Lemma split_empty sep : split sep "" = [""].
Proof. reflexivity. Qed.

(** Joining the segments of a string with its separator gives it back. *)
Lemma join_split sep s : join (String sep "") (split sep s) = s.
Proof.
  induction s as [|c s IH]; simpl; [reflexivity|].
  destruct (Ascii.eqb_spec c sep) as [->|Hne].
  - pose proof (split_nonempty sep s) as Hs.
    destruct (split sep s) as [|seg segs]; [contradiction|].
    simpl in *. now rewrite IH.
  - pose proof (split_nonempty sep s) as Hs.
    destruct (split sep s) as [|seg segs]; [contradiction|].
    destruct segs as [|seg' segs]; simpl in *; now rewrite <- IH.
Qed.

(** [Router.call] looks at its path through its segments only. *)
Lemma Router_call_parts fuel h this path input e :
  Router_call fuel h this path input e
  = Router_call fuel h this (PathArr (parts_of path)) input e.
Proof. destruct fuel; reflexivity. Qed.

(** ** Running behaviours *)

Lemma trace_log ev e : trace (log ev e) = (trace e ++ [ev])%list.
Proof. reflexivity. Qed.

(** A behaviour that never calls [next] does not depend on it and leaves the
    ghost trace alone. *)
Lemma run_settles {N : Type} (p : Prog N) o :
  settles p o ->
  forall next e, exists e', run p next e = (o, e') /\ trace e' = trace e.
Proof.
  induction 1 as [v|x|key value k o _ IH|code k o _ IH|k o _ IH|c k o _ IH];
    intros next e; simpl.
  - now exists e.
  - now exists e.
  - destruct (IH next (sink_call (CSetHeader key value) e)) as (e' & -> & Ht).
    now exists e'.
  - destruct (IH next (sink_call (CStatus code) e)) as (e' & -> & Ht).
    now exists e'.
  - apply IH.
  - destruct (IH next (set_ctx c e)) as (e' & -> & Ht). now exists e'.
Qed.

Lemma run_settles_indep {N : Type} (p : Prog N) o :
  settles p o -> forall next next' e, run p next e = run p next' e.
Proof.
  induction 1; intros next next' e; simpl; auto.
Qed.

(** A transparent middleware hands over to [next] once, with the trace it
    was given, and settles as [next] did. *)
Lemma run_transparent p :
  transparent p ->
  forall (next : Thunk) e,
  exists e1, trace e1 = trace e /\
    forall o e', next e1 = (o, e') ->
      exists e2, run p (fun _ => next) e = (o, e2) /\ trace e2 = trace e'.
Proof.
  induction 1 as [k Hk|key value k _ IH|code k _ IH|k _ IH|c k _ IH];
    intros next e; simpl.
  - exists e. split; [reflexivity|]. intros o e' ->.
    destruct (run_settles (k o) o (Hk o) (fun _ => next) e') as (e2 & -> & Ht).
    now exists e2.
  - destruct (IH next (sink_call (CSetHeader key value) e)) as (e1 & Ht & Hn).
    now exists e1.
  - destruct (IH next (sink_call (CStatus code) e)) as (e1 & Ht & Hn).
    now exists e1.
  - apply IH.
  - destruct (IH next (set_ctx c e)) as (e1 & Ht & Hn). now exists e1.
Qed.

(** A chain of transparent middleware enters each of them once, in list
    order, then runs what it encloses and settles the same way. *)
Lemma chain_transparent parsedInput mws :
  Forall (transparent_on parsedInput) mws ->
  forall (inner : Thunk) e,
  exists e1, trace e1 = (trace e ++ names mws)%list /\
    forall o e', inner e1 = (o, e') ->
      exists e2, fold_right (wrap parsedInput) inner mws e = (o, e2)
                 /\ trace e2 = trace e'.
Proof.
  induction 1 as [|mw mws Hmw _ IH]; intros inner e; simpl.
  - exists e. split; [now rewrite app_nil_r|]. intros o e' ->. now exists e'.
  - unfold wrap at 1.
    set (e0 := log (EMiddleware (mw_name mw)) e).
    destruct (run_transparent _ (Hmw (ctx e0))
                (fold_right (wrap parsedInput) inner mws) e0) as (ea & Hta & Hna).
    destruct (IH inner ea) as (e1 & Ht1 & Hn1).
    exists e1. split.
    + rewrite Ht1, Hta. unfold e0. rewrite trace_log, <- app_assoc. reflexivity.
    + intros o e' Hin. destruct (Hn1 o e' Hin) as (e2 & Hf & Ht2).
      destruct (Hna o e2 Hf) as (e3 & Hr & Ht3).
      exists e3. split; [exact Hr | congruence].
Qed.

(** The handler thunk of a handler that returns [v]. *)
Lemma call_handler_settles (hd : Handler) parsedInput o :
  (forall c, settles (hd c parsedInput) o) ->
  forall e, exists e', call_handler hd parsedInput e = (o, e')
                       /\ trace e' = (trace e ++ [EHandler])%list.
Proof.
  intros Hh e. unfold call_handler.
  destruct (run_settles _ _ (Hh (ctx e)) no_next (log EHandler e)) as (e' & Hr & Ht).
  exists e'. split; [exact Hr | now rewrite Ht].
Qed.

(** Running a behaviour depends on [next] only through what [next] does. *)
Lemma run_ext (p : Prog unit) (next next' : Thunk) :
  (forall e, next e = next' e) ->
  forall e, run p (fun _ => next) e = run p (fun _ => next') e.
Proof.
  intros Hn. induction p as [v|x|key value k IH|code k IH|k IH|c k IH|n k IH];
    intros e; simpl; auto.
  rewrite Hn. destruct (next' e) as [o e']. apply IH.
Qed.

Lemma chain_ext parsedInput mws (inner inner' : Thunk) :
  (forall e, inner e = inner' e) ->
  forall e, fold_right (wrap parsedInput) inner mws e
            = fold_right (wrap parsedInput) inner' mws e.
Proof.
  intros Hi. induction mws as [|mw mws IH]; intros e; simpl; [apply Hi|].
  unfold wrap at 1 3. now apply run_ext.
Qed.

(** A middleware that settles without calling [next]: entering it is all
    that happens, whatever it encloses. *)
Lemma wrap_settles parsedInput mw o :
  (forall c, settles (mw_body mw c parsedInput) o) ->
  forall (next : Thunk) e,
  exists e', wrap parsedInput mw next e = (o, e')
             /\ trace e' = (trace e ++ [EMiddleware (mw_name mw)])%list.
Proof.
  intros Hs next e. unfold wrap.
  destruct (run_settles _ _ (Hs (ctx (log (EMiddleware (mw_name mw)) e)))
              (fun _ => next) (log (EMiddleware (mw_name mw)) e))
    as (e' & Hr & Ht).
  exists e'. split; [exact Hr | now rewrite Ht].
Qed.

Lemma wrap_settles_indep parsedInput mw o :
  (forall c, settles (mw_body mw c parsedInput) o) ->
  forall (next next' : Thunk) e,
  wrap parsedInput mw next e = wrap parsedInput mw next' e.
Proof.
  intros Hs next next' e. unfold wrap. eapply run_settles_indep. apply Hs.
Qed.

(** What is further inward than a middleware that never calls [next] has no
    part in the chain. *)
Lemma chain_cut_indep parsedInput pre mw post post' (inner inner' : Thunk) o :
  (forall c, settles (mw_body mw c parsedInput) o) ->
  forall e,
  fold_right (wrap parsedInput) inner (pre ++ mw :: post) e
  = fold_right (wrap parsedInput) inner' (pre ++ mw :: post') e.
Proof.
  intros Hs e. rewrite !fold_right_app. apply chain_ext. clear e.
  intros e. simpl. now apply wrap_settles_indep with (o := o).
Qed.

(** A chain whose outer middleware are transparent, cut by one that settles
    with [o] without calling [next], settles with [o]; the middleware up to
    that one are entered once each and nothing else is. *)
Lemma chain_cut parsedInput pre mw post (inner : Thunk) o :
  Forall (transparent_on parsedInput) pre ->
  (forall c, settles (mw_body mw c parsedInput) o) ->
  forall e,
  exists e', fold_right (wrap parsedInput) inner (pre ++ mw :: post) e = (o, e')
    /\ trace e' = (trace e ++ names pre ++ [EMiddleware (mw_name mw)])%list.
Proof.
  intros Hpre Hs e. rewrite fold_right_app. simpl.
  destruct (chain_transparent _ _ Hpre
              (wrap parsedInput mw (fold_right (wrap parsedInput) inner post)) e)
    as (e1 & Ht1 & Hn1).
  destruct (wrap_settles _ _ _ Hs (fold_right (wrap parsedInput) inner post) e1)
    as (e' & Hw & Ht').
  destruct (Hn1 o e' Hw) as (e2 & Hf & Ht2).
  exists e2. split; [exact Hf|]. rewrite Ht2, Ht', Ht1, <- app_assoc. reflexivity.
Qed.

(** ** Behaviours in one run *)

Lemma run_finishes {N : Type} (p : Prog N) e o e' :
  finishes p e o e' ->
  forall next, run p next e = (o, e') /\ trace e' = trace e.
Proof.
  induction 1 as [v e|x e|key value k e o e' _ IH|code k e o e' _ IH
                 |k e o e' _ IH|c k e o e' _ IH]; intros next; simpl;
    try (split; reflexivity); apply IH.
Qed.

(** A behaviour that settles whatever the context holds finishes from every
    state. *)
Lemma settles_finishes {N : Type} (p : Prog N) o :
  settles p o -> forall e, exists e', finishes p e o e'.
Proof.
  induction 1 as [v|x|key value k o _ IH|code k o _ IH|k o _ IH|c k o _ IH];
    intros e.
  - eexists. constructor.
  - eexists. constructor.
  - destruct (IH (sink_call (CSetHeader key value) e)) as (e' & H).
    exists e'. now constructor.
  - destruct (IH (sink_call (CStatus code) e)) as (e' & H).
    exists e'. now constructor.
  - destruct (IH (ctx e) e) as (e' & H). exists e'. now constructor.
  - destruct (IH (set_ctx c e)) as (e' & H). exists e'. now constructor.
Qed.

Lemma run_arrives p e e1 k :
  arrives p e e1 k ->
  trace e1 = trace e
  /\ forall next : Thunk,
       run p (fun _ => next) e
       = let '(o, e2) := next e1 in run (k o) (fun _ => next) e2.
Proof.
  induction 1 as [k e|key value p e e1 k _ IH|code p e e1 k _ IH
                 |kr e e1 k _ IH|c p e e1 k _ IH]; simpl;
    try (split; [reflexivity | intros next; reflexivity]);
    destruct IH as [Ht Hr]; (split; [exact Ht | exact Hr]).
Qed.

(** A transparent behaviour arrives at [next()] from every state, and then
    finishes with the outcome it is given. *)
Lemma transparent_arrives p :
  transparent p ->
  forall e, exists e1 k, arrives p e e1 k /\ forall o, settles (k o) o.
Proof.
  induction 1 as [k Hk|key value k _ IH|code k _ IH|k _ IH|c k _ IH]; intros e.
  - exists e, k. split; [constructor | exact Hk].
  - destruct (IH (sink_call (CSetHeader key value) e)) as (e1 & k' & Ha & Hs).
    exists e1, k'. split; [now constructor | exact Hs].
  - destruct (IH (sink_call (CStatus code) e)) as (e1 & k' & Ha & Hs).
    exists e1, k'. split; [now constructor | exact Hs].
  - destruct (IH (ctx e) e) as (e1 & k' & Ha & Hs).
    exists e1, k'. split; [now constructor | exact Hs].
  - destruct (IH (set_ctx c e)) as (e1 & k' & Ha & Hs).
    exists e1, k'. split; [now constructor | exact Hs].
Qed.

(** A chain that is passed through settles as what it encloses, after the
    entry of each middleware, once, in list order. *)
Lemma passes_through_run parsedInput (inner : Step) (th : Thunk) mws e o e' :
  (forall e1 o1 e2, inner e1 o1 e2 -> th e1 = (o1, e2)) ->
  passes_through parsedInput inner mws e o e' ->
  fold_right (wrap parsedInput) th mws e = (o, e')
  /\ exists e1 e2,
       inner e1 o e2
       /\ trace e1 = (trace e ++ names mws)%list
       /\ trace e' = trace e2.
Proof.
  intros Hth.
  induction 1 as [e o e' Hin|mw mws e e1 k o e2 e3 Harr _ IH Hfin]; simpl.
  - split; [now apply Hth|]. exists e, e'. now rewrite app_nil_r.
  - destruct IH as (Hfold & ea & eb & Hin & Hta & Htb).
    destruct (run_arrives _ _ _ _ Harr) as [Ht1 Hrun].
    destruct (run_finishes _ _ _ _ Hfin
                (fun _ => fold_right (wrap parsedInput) th mws)) as [Hk Ht3].
    split.
    + unfold wrap at 1. rewrite Hrun, Hfold. exact Hk.
    + exists ea, eb. split; [exact Hin|]. split.
      * rewrite Hta, Ht1, trace_log, <- app_assoc. reflexivity.
      * now rewrite Ht3.
Qed.

Lemma exec_run (inner : Step) (next : Thunk) p e o e' :
  (forall e1 o1 e2, inner e1 o1 e2 -> next e1 = (o1, e2)) ->
  exec inner p e o e' -> run p (fun _ => next) e = (o, e').
Proof.
  intros Hn.
  induction 1 as [v e|x e|key value k e o e' _ IH|code k e o e' _ IH
                 |k e o e' _ IH|c k e o e' _ IH|k e o1 e1 o e' Hin _ IH];
    simpl; auto.
  now rewrite (Hn _ _ _ Hin).
Qed.

Lemma chain_exec_run parsedInput (inner : Step) (th : Thunk) mws :
  (forall e1 o1 e2, inner e1 o1 e2 -> th e1 = (o1, e2)) ->
  forall e o e',
  chain_exec parsedInput inner mws e o e' ->
  fold_right (wrap parsedInput) th mws e = (o, e').
Proof.
  intros Hth. induction mws as [|mw mws IH]; intros e o e' H; simpl in *.
  - now apply Hth.
  - unfold wrap at 1. eapply exec_run; [|exact H]. exact IH.
Qed.

(** The middleware that finishes without calling [next()] does so whatever
    it encloses. *)
Lemma cut_step_wrap parsedInput mw (next : Thunk) e o e' :
  cut_step parsedInput mw e o e' -> wrap parsedInput mw next e = (o, e').
Proof.
  intros H. unfold wrap. now apply (run_finishes _ _ _ _ H).
Qed.

Lemma cut_step_trace parsedInput mw e o e' :
  cut_step parsedInput mw e o e' ->
  trace e' = (trace e ++ [EMiddleware (mw_name mw)])%list.
Proof.
  intros H. destruct (run_finishes _ _ _ _ H (fun _ e0 => (Resolved VUndefined, e0)))
    as [_ Ht].
  now rewrite Ht.
Qed.

(** ** Plain routers *)

Lemma plain_this_middlewares r :
  plain r -> this_middlewares r = SArray (r_middlewares r).
Proof. intros (_ & H & _). unfold this_middlewares. now rewrite H. Qed.

Lemma plain_call_shadowed r : plain r -> call_shadowed r = false.
Proof. intros (_ & _ & H & _). unfold call_shadowed. now rewrite H. Qed.

Lemma plain_use_shadowed r : plain r -> use_shadowed r = false.
Proof. intros (_ & _ & _ & H & _). unfold use_shadowed. now rewrite H. Qed.

Lemma plain_lookup_route h r first :
  plain r -> lookup_route h r first = Some (routes_get (routes r) first).
Proof. intros (H & _). unfold lookup_route. now rewrite H. Qed.


Lemma plain_store_same_shape h h' :
  same_shape h h' -> plain_store h -> plain_store h'.
Proof.
  intros Hs Hp a rs Ha. apply (Hp a). now rewrite (Hs a).
Qed.

(** ** [Router.use] *)

(** On a router with no route named [middlewares], [use] appends to the
    router's own list. *)
Lemma Router_use_appends h this r mw :
  h !! this = Some (ORouter r) ->
  routes r !! "middlewares" = None ->
  Router_use h this mw
  = Some (inr (<[this := ORouter (mkRouter (routes r)
                                    (r_middlewares r ++ [mw]))]> h)).
Proof.
  intros Hthis Hm. unfold Router_use, this_middlewares. now rewrite Hthis, Hm.
Qed.

(** ** [Router.call]: one level *)

Section OneLevel.

Variables (h : gmap addr Obj) (this : addr) (r : Router).
Hypothesis Hthis : h !! this = Some (ORouter r).
Hypothesis Hplain : plain r.

Variables (path : Path) (input : Value) (e : Env) (fuel : nat).

(** No own route and no inherited property under the first segment. *)
Lemma Router_call_not_found :
  routes r !! key_of (head (parts_of path)) = None ->
  inherited (key_of (head (parts_of path))) = false ->
  Router_call (S fuel) h this path input e
  = Some (Rejected (not_found (parts_of path)), h, e).
Proof.
  intros Hown Hinh. simpl. rewrite Hthis, (plain_lookup_route _ _ _ Hplain).
  unfold routes_get. now rewrite Hown, Hinh.
Qed.



(** A procedure reached with nothing left: the merged list is written into
    the procedure object, which is then called. *)
Lemma Router_call_procedure target p :
  routes r !! key_of (head (parts_of path)) = Some target ->
  h !! target = Some (OProcedure p) ->
  tail (parts_of path) = [] ->
  let p' := with_middlewares p (r_middlewares r ++ p_middlewares p) in
  Router_call (S fuel) h this path input e
  = Some (fst (Procedure_call p' input e),
          <[target := OProcedure p']> h,
          snd (Procedure_call p' input e)).
Proof.
  intros Hown Ht Hrest p'. simpl.
  rewrite Hthis, (plain_lookup_route _ _ _ Hplain). unfold routes_get.
  rewrite Hown, Ht, Hrest, (plain_this_middlewares _ Hplain). fold p'.
  now destruct (Procedure_call p' input e).
Qed.

(** A plain child router: the parent's list is put in front of the child's
    stored list, and the child is called with the rest. *)
Lemma Router_call_router target c :
  routes r !! key_of (head (parts_of path)) = Some target ->
  h !! target = Some (ORouter c) ->
  plain c ->
  Router_call (S fuel) h this path input e
  = Router_call fuel
      (<[target := ORouter (mkRouter (routes c)
                              (r_middlewares r ++ r_middlewares c))]> h)
      target (PathArr (tail (parts_of path))) input e.
Proof.
  intros Hown Ht Hc. simpl.
  rewrite Hthis, (plain_lookup_route _ _ _ Hplain). unfold routes_get.
  now rewrite Hown, Ht, (plain_this_middlewares _ Hc),
              (plain_this_middlewares _ Hplain), (plain_call_shadowed _ Hc).
Qed.

End OneLevel.

(** More fuel does not change a call that has settled. *)
Lemma Router_call_fuel_mono fuel :
  forall fuel' h this path input e r,
  (fuel <= fuel')%nat ->
  Router_call fuel h this path input e = Some r ->
  Router_call fuel' h this path input e = Some r.
Proof.
  induction fuel as [|fuel IH]; intros fuel' h this path input e r Hle;
    [discriminate|].
  destruct fuel' as [|fuel']; [lia|]. simpl.
  destruct (h !! this) as [[p|rt]|]; try discriminate.
  destruct (lookup_route h rt (head (parts_of path))) as [[|target|]|];
    try (intros H; exact H).
  destruct (h !! target) as [[p|c]|]; try (intros H; exact H).
  destruct (this_middlewares c), (this_middlewares rt); try (intros H; exact H).
  destruct (call_shadowed c); [intros H; exact H|].
  apply IH. lia.
Qed.

(** ** What a write into the store keeps *)

Lemma grows_refl o : grows o o.
Proof.
  split; [destruct o; auto | now exists []].
Qed.

Lemma grows_trans o1 o2 o3 : grows o1 o2 -> grows o2 o3 -> grows o1 o3.
Proof.
  intros [H12 [a12 E12]] [H23 [a23 E23]]. split.
  - destruct o1, o2, o3; try contradiction; simpl in *.
    + destruct H12 as (? & ? & ?), H23 as (? & ? & ?). repeat split; congruence.
    + congruence.
  - exists (a23 ++ a12)%list. now rewrite E23, E12, app_assoc.
Qed.

Lemma frame_refl h : frame h h.
Proof. intros a. destruct (h !! a); [apply grows_refl | exact I]. Qed.

Lemma frame_trans h1 h2 h3 : frame h1 h2 -> frame h2 h3 -> frame h1 h3.
Proof.
  intros H12 H23 a. specialize (H12 a). specialize (H23 a).
  destruct (h1 !! a), (h2 !! a), (h3 !! a); try contradiction; try exact I.
  eapply grows_trans; eassumption.
Qed.

Lemma frame_insert h a o o' :
  h !! a = Some o -> grows o o' -> frame h (<[a := o']> h).
Proof.
  intros Ha Hg b. destruct (decide (a = b)) as [->|Hne].
  - now rewrite lookup_insert_eq, Ha.
  - rewrite lookup_insert_ne by exact Hne.
    destruct (h !! b); [apply grows_refl | exact I].
Qed.

(** ** [Router.call]: descending through child routers *)

Lemma shape_router h a rs :
  shape h a = Some (KRouter rs) ->
  exists r, h !! a = Some (ORouter r) /\ routes r = rs.
Proof.
  unfold shape. destruct (h !! a) as [[p|r]|]; simpl; intros H;
    try discriminate.
  exists r. split; [reflexivity | congruence].
Qed.


(** Overwriting an object by one of the same kind keeps the shape. *)
Lemma same_shape_insert h a o o' :
  h !! a = Some o -> kind o' = kind o -> same_shape h (<[a := o']> h).
Proof.
  intros Ha Hk b. unfold shape. destruct (decide (a = b)) as [->|Hne].
  - rewrite lookup_insert_eq, Ha. simpl. now rewrite Hk.
  - now rewrite lookup_insert_ne.
Qed.








(** ** [Router.call]: what it changes in the store *)

Lemma Router_call_grows fuel :
  forall h this path input e o h' e',
  Router_call fuel h this path input e = Some (o, h', e') -> frame h h'.
Proof.
  induction fuel as [|fuel IH]; intros h this path input e o h' e'; simpl;
    [discriminate|].
  destruct (h !! this) as [[p|r]|] eqn:Hthis; try discriminate.
  destruct (lookup_route h r (head (parts_of path))) as [[|target|]|];
    try discriminate.
  - intros [= _ <- _]. apply frame_refl.
  - destruct (h !! target) as [[p|c]|] eqn:Htarget; try discriminate.
    + destruct (tail (parts_of path)).
      * destruct (this_middlewares r) as [mws|b].
        -- destruct (Procedure_call _ input e) as [o1 e1].
           intros [= _ <- _]. eapply frame_insert; [exact Htarget|].
           split; [simpl; auto | now exists mws].
        -- intros [= _ <- _]. apply frame_refl.
      * intros [= _ <- _]. apply frame_refl.
    + destruct (this_middlewares c) as [cmws|b] eqn:Hc;
        [|intros [= _ <- _]; apply frame_refl].
      destruct (this_middlewares r) as [mws|b];
        [|intros [= _ <- _]; apply frame_refl].
      assert (Hcm : cmws = r_middlewares c).
      { unfold this_middlewares in Hc.
        destruct (routes c !! "middlewares"); congruence. }
      assert (Hf : frame h (<[target := ORouter (mkRouter (routes c)
                                                  (mws ++ cmws))]> h)).
      { eapply frame_insert; [exact Htarget|].
        split; [reflexivity | exists mws; now rewrite Hcm]. }
      destruct (call_shadowed c).
      * intros [= _ <- _]. exact Hf.
      * intros Hcall. eapply frame_trans; [exact Hf|]. eapply IH; exact Hcall.
  - intros [= _ <- _]. apply frame_refl.
Qed.

Lemma frame_same_shape h h' : frame h h' -> same_shape h h'.
Proof.
  intros Hf a. specialize (Hf a). unfold shape.
  destruct (h !! a) as [[p|r]|], (h' !! a) as [[p'|r']|]; simpl;
    try contradiction; try reflexivity;
    destruct Hf as [Hf _]; try contradiction.
  now rewrite Hf.
Qed.

(** ** [Router.call]: the procedure a path leads to *)








(** ** [Procedure.call] *)

(** A handler holds no [next]: running it adds nothing to the trace. *)
Lemma run_handler_trace (p : Prog Empty_set) :
  forall e, trace (snd (run p no_next e)) = trace e.
Proof.
  induction p as [v|x|key value k IH|code k IH|k IH|c k IH|n k IH];
    intros e; simpl; auto.
  - now rewrite IH.
  - now rewrite IH.
  - now rewrite IH.
  - destruct n.
Qed.

Lemma handler_step_trace hd parsedInput e o e' :
  handler_step hd parsedInput e o e' ->
  trace e' = (trace e ++ [EHandler])%list.
Proof.
  unfold handler_step, call_handler. intros H.
  pose proof (run_handler_trace (hd (ctx e) parsedInput) (log EHandler e))
    as Ht.
  rewrite H in Ht. simpl in Ht. rewrite Ht. apply trace_log.
Qed.

(** With transparent middleware and a handler that returns [v], the call
    enters every stored middleware once, in list order, then the handler, and
    settles as the output schema does on [v]. *)
Lemma Procedure_call_transparent (p : Procedure) input parsedInput v e :
  inputSchema p input = Resolved parsedInput ->
  (forall c, settles (handler p c parsedInput) (Resolved v)) ->
  Forall (transparent_on parsedInput) (p_middlewares p) ->
  exists e', Procedure_call p input e = (outputSchema p v, e')
    /\ trace e' = (trace e ++ EParseInput :: names (p_middlewares p)
                           ++ [EHandler; EParseOutput])%list.
Proof.
  intros Hin Hh Hmws. unfold Procedure_call, compose. rewrite Hin.
  destruct (chain_transparent _ _ Hmws (call_handler (handler p) parsedInput)
              (log EParseInput e)) as (e1 & Ht1 & Hn).
  destruct (call_handler_settles _ _ _ Hh e1) as (e' & Hc & Ht').
  destruct (Hn _ _ Hc) as (e2 & -> & Ht2).
  exists (log EParseOutput e2). split; [reflexivity|].
  rewrite trace_log, Ht2, Ht', Ht1, trace_log.
  rewrite <- !app_assoc. reflexivity.
Qed.

(** A chain in which every middleware, in the state it is entered in, calls
    [next()] once and settles with its outcome, around a handler. *)
Lemma passes_through_handler parsedInput hd mws e o e2 :
  passes_through parsedInput (handler_step hd parsedInput) mws e o e2 ->
  compose mws hd parsedInput e = (o, e2)
  /\ trace e2 = (trace e ++ names mws ++ [EHandler])%list
  /\ exists e1 e1', call_handler hd parsedInput e1 = (o, e1')
       /\ trace e1 = (trace e ++ names mws)%list.
Proof.
  intros H.
  destruct (passes_through_run parsedInput _ (call_handler hd parsedInput)
              mws e o e2 (fun _ _ _ Hs => Hs) H)
    as (Hfold & e1 & e1' & Hin & Ht1 & Ht2).
  split; [exact Hfold|]. split.
  - now rewrite Ht2, (handler_step_trace _ _ _ _ _ Hin), Ht1, <- app_assoc.
  - now exists e1, e1'.
Qed.

(** A chain cut by the middleware [mw]: what stands inward of [mw] has no
    part in the run. *)
Lemma chain_exec_cut parsedInput pre mw post (th : Thunk) e o e2 :
  chain_exec parsedInput (cut_step parsedInput mw) pre e o e2 ->
  fold_right (wrap parsedInput) th (pre ++ mw :: post) e = (o, e2).
Proof.
  intros H. rewrite fold_right_app. simpl.
  eapply chain_exec_run; [|exact H].
  intros e1 o1 e1' Hc. now apply cut_step_wrap.
Qed.

(** What a run adds to the trace is what its calls of [next()] add. *)
Lemma exec_trace (inner : Step) (P : Event -> Prop) :
  (forall e o e', inner e o e' ->
     exists t, trace e' = (trace e ++ t)%list /\ Forall P t) ->
  forall p e o e', exec inner p e o e' ->
    exists t, trace e' = (trace e ++ t)%list /\ Forall P t.
Proof.
  intros Hinner.
  induction 1 as [v e|x e|key value k e o e' _ IH|code k e o e' _ IH
                 |k e o e' _ IH|c k e o e' _ IH|k e o1 e1 o e' Hin _ IH];
    try exact IH.
  - exists []. split; [now rewrite app_nil_r | constructor].
  - exists []. split; [now rewrite app_nil_r | constructor].
  - destruct (Hinner _ _ _ Hin) as (t1 & Ht1 & HP1).
    destruct IH as (t2 & Ht2 & HP2).
    exists (t1 ++ t2)%list. split; [|now apply Forall_app].
    now rewrite Ht2, Ht1, app_assoc.
Qed.

(** A chain cut by [mw] enters nothing but middleware. *)
Lemma chain_exec_cut_trace parsedInput mw pre :
  forall e o e2,
  chain_exec parsedInput (cut_step parsedInput mw) pre e o e2 ->
  exists t, trace e2 = (trace e ++ t)%list
    /\ Forall (fun ev => ev <> EHandler) t.
Proof.
  induction pre as [|mw0 pre IH]; intros e o e2 H; simpl in H.
  - exists [EMiddleware (mw_name mw)]. split.
    + exact (cut_step_trace _ _ _ _ _ H).
    + repeat constructor. discriminate.
  - destruct (exec_trace _ _ IH _ _ _ _ H) as (t & Ht & HP).
    exists (EMiddleware (mw_name mw0) :: t). split.
    + rewrite Ht, trace_log, <- app_assoc. reflexivity.
    + constructor; [discriminate | exact HP].
Qed.

Lemma passes_through_cut parsedInput pre mw post (th : Thunk) e o e2 :
  passes_through parsedInput (cut_step parsedInput mw) pre e o e2 ->
  fold_right (wrap parsedInput) th (pre ++ mw :: post) e = (o, e2)
  /\ trace e2 = (trace e ++ names pre ++ [EMiddleware (mw_name mw)])%list.
Proof.
  intros H. rewrite fold_right_app. simpl.
  destruct (passes_through_run parsedInput _
              (wrap parsedInput mw (fold_right (wrap parsedInput) th post))
              pre e o e2 (fun _ _ _ Hc => cut_step_wrap _ _ _ _ _ _ Hc) H)
    as (Hfold & e1 & e1' & Hin & Ht1 & Ht2).
  split; [exact Hfold|].
  now rewrite Ht2, (cut_step_trace _ _ _ _ _ Hin), Ht1, <- app_assoc.
Qed.

(** C4 (as amended).  When the input schema accepts the input and, in this
    call, every middleware of the procedure's stored list calls [next()]
    once and settles with its outcome, the handler returns [v] and the output
    schema accepts [v], then [Procedure.call] resolves to the value the
    output schema gives for [v], after entering every middleware once, in
    list order, and then the handler.  The middleware and the handler are
    taken in the states in which the call enters them, so that what they do
    may depend on the context.  The handler is called with the parsed input,
    and what runs is determined by it: two raw inputs with the same parse
    give the same call. *)
Theorem Procedure_call_validated (p : Procedure) input parsedInput v out e e2 :
  inputSchema p input = Resolved parsedInput ->
  passes_through parsedInput (handler_step (handler p) parsedInput)
                 (p_middlewares p) (log EParseInput e) (Resolved v) e2 ->
  outputSchema p v = Resolved out ->
  Procedure_call p input e = (Resolved out, log EParseOutput e2)
  /\ trace (log EParseOutput e2)
     = (trace e ++ EParseInput :: names (p_middlewares p)
                ++ [EHandler; EParseOutput])%list
  /\ (exists e1 e1', call_handler (handler p) parsedInput e1 = (Resolved v, e1')
        /\ trace e1 = (trace e ++ EParseInput :: names (p_middlewares p))%list)
  /\ (forall input', inputSchema p input' = Resolved parsedInput ->
        Procedure_call p input' e = Procedure_call p input e).
Proof.
  intros Hin Hpass Hout.
  destruct (passes_through_handler _ _ _ _ _ _ Hpass)
    as (Hc & Ht & e1 & e1' & Hh & Ht1).
  repeat split.
  - unfold Procedure_call. now rewrite Hin, Hc, Hout.
  - rewrite trace_log, Ht, trace_log, <- !app_assoc. reflexivity.
  - exists e1, e1'. split; [exact Hh|].
    rewrite Ht1, trace_log, <- app_assoc. reflexivity.
  - intros input' Hin'. unfold Procedure_call. now rewrite Hin, Hin'.
Qed.

Lemma Procedure_call_validated_witness :
  Procedure_call account VNull with_token
  = (Resolved (VStr "ada"),
     log EParseOutput
       (mkEnv (VObj [("user", VStr "ada"); ("token", VStr "ada")]) []
              [EParseInput; EMiddleware "log"; EMiddleware "authMiddleware";
               EMiddleware "inner"; EHandler])).
Proof.
  refine (proj1 (Procedure_call_validated account VNull VNull (VStr "ada")
                   (VStr "ada") with_token _ _ _ _)).
  - reflexivity.
  - eapply passes_cons; [apply arrives_CallNext| |apply finishes_Ret].
    eapply passes_cons;
      [apply arrives_WriteCtx, arrives_CallNext| |apply finishes_Ret].
    eapply passes_cons; [apply arrives_CallNext| |apply finishes_Ret].
    apply passes_nil. reflexivity.
  - reflexivity.
Defined.

(** C4 fails as stated: the input and the handler's result are accepted, yet
    the call resolves to what a middleware answered, not the handler. *)
Lemma Procedure_call_validated_counterexample :
  inputSchema denied VNull = Resolved VNull
  /\ (forall c, settles (handler denied c VNull) (Resolved (VStr "ok")))
  /\ outputSchema denied (VStr "ok") = Resolved (VStr "ok")
  /\ fst (Procedure_call denied VNull env0) = Resolved (VStr "denied")
  /\ fst (Procedure_call denied VNull env0) <> Resolved (VStr "ok").
Proof.
  repeat split; try reflexivity.
  - intros c. apply settles_Ret.
  - discriminate.
Qed.

(** C7 (as amended).  Take a call in which the middleware [mw] of the
    effective chain, each time it is entered, settles without calling
    [next()] (in the state and with the context it is entered in; what the
    middleware outward of it do is left open).  Then nothing further inward
    has any part in the call: the chain settles as that run does, the handler
    is not entered, and replacing the inner middleware and the handler
    changes nothing.  When moreover every middleware outward of [mw] calls
    [next()] once and settles with its outcome, and [mw] returns [v], the
    call enters the middleware up to [mw], once each, and neither an inner
    middleware nor the handler; its result is what the output schema makes
    of [v] (the schema's rejection if it does not accept [v]). *)
Theorem Procedure_call_short_circuit (p : Procedure) input parsedInput
    pre mw post e :
  inputSchema p input = Resolved parsedInput ->
  p_middlewares p = (pre ++ mw :: post)%list ->
  (forall o e2,
     chain_exec parsedInput (cut_step parsedInput mw) pre
                (log EParseInput e) o e2 ->
     compose (p_middlewares p) (handler p) parsedInput (log EParseInput e)
     = (o, e2)
     /\ (exists t, trace e2 = (trace e ++ EParseInput :: t)%list
                   /\ ~ In EHandler t)
     /\ forall post' handler',
          Procedure_call (mkProcedure (inputSchema p) (outputSchema p) handler'
                                      (pre ++ mw :: post')) input e
          = Procedure_call p input e)
  /\ (forall v e2,
        passes_through parsedInput (cut_step parsedInput mw) pre
                       (log EParseInput e) (Resolved v) e2 ->
        Procedure_call p input e = (outputSchema p v, log EParseOutput e2)
        /\ trace (log EParseOutput e2)
           = (trace e ++ EParseInput :: names pre
                      ++ [EMiddleware (mw_name mw); EParseOutput])%list).
Proof.
  intros Hin Hmws. split.
  - intros o e2 Hcut. split; [|split].
    + unfold compose. rewrite Hmws. now apply chain_exec_cut.
    + destruct (chain_exec_cut_trace _ _ _ _ _ _ Hcut) as (t & Ht & HP).
      exists t. split.
      * rewrite Ht, trace_log, <- app_assoc. reflexivity.
      * intros Hh. now apply (proj1 (List.Forall_forall _ _) HP _ Hh).
    + intros post' handler'. unfold Procedure_call, compose. simpl.
      rewrite Hin, Hmws.
      rewrite (chain_exec_cut parsedInput pre mw post'
                 (call_handler handler' parsedInput) _ _ _ Hcut).
      now rewrite (chain_exec_cut parsedInput pre mw post
                     (call_handler (handler p) parsedInput) _ _ _ Hcut).
  - intros v e2 Hpass. unfold Procedure_call, compose. rewrite Hin, Hmws.
    destruct (passes_through_cut parsedInput pre mw post
                (call_handler (handler p) parsedInput) _ _ _ Hpass)
      as [-> Ht].
    split; [reflexivity|].
    rewrite trace_log, Ht, trace_log, <- !app_assoc. reflexivity.
Qed.

Lemma Procedure_call_short_circuit_witness :
  Procedure_call cached VNull with_cache
  = (Resolved (VStr "hit"),
     log EParseOutput
       (mkEnv (VObj [("cached", VStr "hit")]) []
              [EParseInput; EMiddleware "log"; EMiddleware "cache"])).
Proof.
  refine (proj1 (proj2 (Procedure_call_short_circuit cached VNull VNull
                          [passthrough "log"] cacheMiddleware
                          [passthrough "inner"] with_cache _ _)
                   (VStr "hit") _ _)).
  - reflexivity.
  - reflexivity.
  - eapply passes_cons; [apply arrives_CallNext| |apply finishes_Ret].
    apply passes_nil. apply finishes_Ret.
Defined.

(** C7 fails as stated: [deny] returns ["denied"] without calling [next()],
    and the call does not resolve to that value: the output schema rejects
    it. *)
Lemma Procedure_call_short_circuit_counterexample :
  p_middlewares typed_denied = [deny]
  /\ (forall c, settles (mw_body deny c VNull) (Resolved (VStr "denied")))
  /\ fst (Procedure_call typed_denied VNull env0)
     = Rejected (ZodError "Expected object")
  /\ fst (Procedure_call typed_denied VNull env0) <> Resolved (VStr "denied").
Proof.
  repeat split; try reflexivity.
  - intros c. apply settles_Ret.
  - discriminate.
Qed.




(** The README's test: [testRouter.call({}, "echo", { message: "Hello World" }, res)]
    resolves to [{ result: "Echo: Hello World" }]. *)
Example readme_echo :
  observe (Router_call 1 h_test 1%nat (PathStr "echo") hello env0)
  = Some (Resolved (VObj [("result", VStr "Echo: Hello World")]),
          [EParseInput; EHandler; EParseOutput]).
Proof. vm_compute. reflexivity. Qed.

(** ** [Router.call]: the claims on route resolution *)

(** C6, at a path the claim covers and the code answers otherwise.  The
    router [createRouter({ routes: echo })] has the route [routes], a
    Procedure, and the path [routes.extra] leaves the segment [extra] after
    it; the call rejects with code 404, not with code 400.  The constructor's
    [Object.assign(this, routes)] has put the procedure in the place of the
    router's [routes] member, where [this.routes[first]] then finds no
    property named [routes]. *)
Theorem Router_call_residual_after_routes :
  h_routes !! 1%nat = Some (ORouter (createRouter {[ "routes" := 2%nat ]}))
  /\ routes (createRouter {[ "routes" := 2%nat ]}) !! "routes" = Some 2%nat
  /\ h_routes !! 2%nat = Some (OProcedure echo)
  /\ parts_of (PathStr "routes.extra") = ["routes"; "extra"]
  /\ Router_call 2 h_routes 1%nat (PathStr "routes.extra") hello env0
     = Some (Rejected (RPCError 404 "Route 'routes.extra' not found" VUndefined),
             h_routes, env0).
Proof. repeat split. Qed.


Lemma h_nested_plain : plain_store h_nested.
Proof.
  intros a rs Ha. unfold shape, h_nested in Ha.
  destruct (decide (a = 1%nat)) as [->|Hne1].
  - rewrite lookup_insert_eq in Ha. injection Ha as <-. repeat split.
  - rewrite lookup_insert_ne in Ha by congruence.
    destruct (decide (a = 2%nat)) as [->|Hne2].
    + rewrite lookup_insert_eq in Ha. injection Ha as <-. repeat split.
    + rewrite lookup_insert_ne in Ha by congruence.
      destruct (decide (a = 3%nat)) as [->|Hne3].
      * rewrite lookup_insert_eq in Ha. discriminate.
      * rewrite lookup_insert_ne, lookup_empty in Ha by congruence.
        discriminate.
Defined.





(** C5, at a path the claim covers and the code answers otherwise: no route
    of the router is named ["toString"], and the call rejects with code 400,
    "Invalid route", not with code 404.  The property read [routes[first]]
    finds [Object.prototype.toString]. *)
Theorem Router_call_inherited_name :
  routes (mkRouter {[ "echo" := 2%nat ]} [passthrough "A"]) !! "toString" = None
  /\ h_echo !! 1%nat
     = Some (ORouter (mkRouter {[ "echo" := 2%nat ]} [passthrough "A"]))
  /\ Router_call 1 h_echo 1%nat (PathStr "toString") hello env0
     = Some (Rejected (RPCError 400 "Invalid route at 'toString'" VUndefined),
             h_echo, env0).
Proof. repeat split. Qed.


(** ** Accumulation in the stored middleware lists *)

Lemma with_middlewares_id p : with_middlewares p (p_middlewares p) = p.
Proof. now destruct p. Qed.

Lemma copies_comm {A : Type} n (l : list A) :
  (copies n l ++ l = l ++ copies n l)%list.
Proof.
  induction n as [|n IH]; simpl; [now rewrite app_nil_r|].
  now rewrite <- app_assoc, IH.
Qed.

Section Accumulation.

Variables (this target : addr) (r : Router) (first : string).
Variables (input c : Value) (fuel : nat).
Hypothesis Hroute : routes r !! first = Some target.
Hypothesis Hplain : plain r.

(** After [n] calls of a route that names a procedure directly, on a router
    whose route names leave the members of the router object alone, the
    procedure's stored list holds [n] copies of the router's list in front
    of what it held; the router object is as it was. *)
Lemma call_times_accumulates n :
  forall h p,
  h !! this = Some (ORouter r) ->
  h !! target = Some (OProcedure p) ->
  exists rs h',
    call_times n (S fuel) h this (PathArr [first]) input c = Some (rs, h')
    /\ length rs = n
    /\ h' !! this = Some (ORouter r)
    /\ h' !! target
       = Some (OProcedure
                 (with_middlewares p (copies n (r_middlewares r)
                                        ++ p_middlewares p))).
Proof.
  induction n as [|n IH]; intros h p Hthis Htarget.
  - exists [], h. simpl. now rewrite with_middlewares_id.
  - cbn [call_times].
    rewrite (Router_call_procedure h this r Hthis Hplain (PathArr [first]) input
               (mkEnv c [] []) fuel target p Hroute Htarget eq_refl).
    set (p1 := with_middlewares p (r_middlewares r ++ p_middlewares p)).
    assert (Hne : target <> this) by congruence.
    destruct (IH (<[target := OProcedure p1]> h) p1) as (rs & h' & -> & Hl & Ht & Hp).
    + now rewrite lookup_insert_ne.
    + now rewrite lookup_insert_eq.
    + eexists _, h'. split; [reflexivity|]. split; [simpl; now rewrite Hl|].
      split; [exact Ht|]. rewrite Hp. unfold p1, with_middlewares. simpl.
      now rewrite <- !app_assoc, (app_assoc (copies n _)), copies_comm,
                  <- !app_assoc.
Qed.

(** With transparent middleware, call number [k + 1] enters each of the
    router's middleware [k + 1] times. *)
Lemma call_times_traces parsedInput v n :
  forall h p,
  h !! this = Some (ORouter r) ->
  h !! target = Some (OProcedure p) ->
  inputSchema p input = Resolved parsedInput ->
  (forall c', settles (handler p c' parsedInput) (Resolved v)) ->
  Forall (transparent_on parsedInput) (r_middlewares r) ->
  Forall (transparent_on parsedInput) (p_middlewares p) ->
  exists rs h',
    call_times n (S fuel) h this (PathArr [first]) input c = Some (rs, h')
    /\ forall k, (k < n)%nat ->
         nth_error rs k
         = Some (outputSchema p v,
                 (EParseInput :: names (copies (S k) (r_middlewares r)
                                          ++ p_middlewares p)
                    ++ [EHandler; EParseOutput])%list).
Proof.
  induction n as [|n IH]; intros h p Hthis Htarget Hin Hh Hr Hp.
  - exists [], h. split; [reflexivity|]. intros k Hk. lia.
  - cbn [call_times].
    rewrite (Router_call_procedure h this r Hthis Hplain (PathArr [first]) input
               (mkEnv c [] []) fuel target p Hroute Htarget eq_refl).
    set (p1 := with_middlewares p (r_middlewares r ++ p_middlewares p)).
    assert (Hne : target <> this) by congruence.
    assert (Hp1 : Forall (transparent_on parsedInput) (p_middlewares p1))
      by (apply Forall_app; now split).
    destruct (Procedure_call_transparent p1 input parsedInput v
                (mkEnv c [] []) Hin Hh Hp1) as (e1 & He1 & Ht1).
    rewrite He1. cbn [fst snd].
    destruct (IH (<[target := OProcedure p1]> h) p1) as (rs & h' & -> & Hk);
      try assumption.
    + now rewrite lookup_insert_ne.
    + now rewrite lookup_insert_eq.
    + eexists _, h'. split; [reflexivity|].
      intros [|k] Hlt; cbn [nth_error].
      * rewrite Ht1. cbn [copies]. now rewrite app_nil_r.
      * rewrite (Hk k) by lia. cbn [p1 with_middlewares outputSchema p_middlewares].
        do 3 f_equal. cbn [copies].
        now rewrite <- !app_assoc, (app_assoc (copies k _)), copies_comm,
                    <- !app_assoc.
Qed.

End Accumulation.

(** C1, at inputs on which the code does otherwise.  On
    [createRouter({ echo }).use(A)], one call of ["echo"] leaves the
    router's middleware [A] stored in the procedure's own [middlewares],
    which held nothing before.  On the nested routers, one call of
    ["v1.get"] leaves [A] in front of [B] in the inner router's stored list
    and [A], [B] in front of [C] in the procedure's: the merged list is
    written back into the nodes. *)
Theorem Router_call_mutates_stored_list :
  stored h_echo 2%nat = Some []
  /\ stored_after (Router_call 2 h_echo 1%nat (PathStr "echo") hello env0) 2%nat
     = Some ["A"]
  /\ stored h_nested 2%nat = Some ["B"]
  /\ stored h_nested 3%nat = Some ["C"]
  /\ stored_after (Router_call 3 h_nested 1%nat (PathStr "v1.get") VNull env0)
                  2%nat
     = Some ["A"; "B"]
  /\ stored_after (Router_call 3 h_nested 1%nat (PathStr "v1.get") VNull env0)
                  3%nat
     = Some ["A"; "B"; "C"].
Proof. repeat split; vm_compute; reflexivity. Qed.

(** C2, at an input on which the code does otherwise: the same call issued
    twice on [createRouter({ echo }).use(A)] enters [A] once in the first
    call and twice in the second. *)
Theorem second_call_enters_middleware_twice :
  fst <$> call_times 2 2 h_echo 1%nat (PathStr "echo") hello (VObj [])
  = Some [ (Resolved (VObj [("result", VStr "Echo: Hello World")]),
            [EParseInput; EMiddleware "A"; EHandler; EParseOutput]);
           (Resolved (VObj [("result", VStr "Echo: Hello World")]),
            [EParseInput; EMiddleware "A"; EMiddleware "A"; EHandler;
             EParseOutput]) ].
Proof. vm_compute. reflexivity. Qed.

(** C3, at an input on which the code does otherwise: on a router with
    middleware [A] holding a router with middleware [B] holding a procedure
    with middleware [C], the first call of ["v1.get"] enters [A], [B], [C]
    and the handler; the second call, which also reaches the procedure,
    enters [A], [A], [B], [A], [B], [C] and the handler. *)
Theorem second_nested_call_order :
  fst <$> call_times 2 3 h_nested 1%nat (PathStr "v1.get") VNull (VObj [])
  = Some [ (Resolved (VStr "ok"),
            [EParseInput; EMiddleware "A"; EMiddleware "B"; EMiddleware "C";
             EHandler; EParseOutput]);
           (Resolved (VStr "ok"),
            [EParseInput; EMiddleware "A"; EMiddleware "A"; EMiddleware "B";
             EMiddleware "A"; EMiddleware "B"; EMiddleware "C";
             EHandler; EParseOutput]) ].
Proof. vm_compute. reflexivity. Qed.

(** ** The transport boundary *)




(** ** The first call through a tree *)

Lemma walks_same_shape h h' this parts visited target :
  same_shape h h' ->
  walks h this parts visited target -> walks h' this parts visited target.
Proof.
  intros Hs. induction 1 as [this first rs target H1 H2 H3
                            |this first rest rs child visited target H1 H2 _ IH].
  - apply walks_procedure with (rs := rs);
      [rewrite <- (Hs this); exact H1 | exact H2
      | rewrite <- (Hs target); exact H3].
  - apply walks_router with (rs := rs) (child := child);
      [rewrite <- (Hs this); exact H1 | exact H2 | exact IH].
Qed.

Lemma walks_head h this parts visited target :
  walks h this parts visited target ->
  exists rs rest, shape h this = Some (KRouter rs) /\ visited = this :: rest.
Proof. destruct 1; eauto. Qed.

Lemma middlewares_at_insert_ne h a b o :
  a <> b -> middlewares_at (<[a := o]> h) b = middlewares_at h b.
Proof. intros Hne. unfold middlewares_at. now rewrite lookup_insert_ne. Qed.

Lemma map_middlewares_at_insert h a o visited :
  a ∉ visited ->
  map (middlewares_at (<[a := o]> h)) visited = map (middlewares_at h) visited.
Proof.
  induction visited as [|b visited IH]; intros Hnotin; simpl; [reflexivity|].
  rewrite middlewares_at_insert_ne, IH; [reflexivity| |];
    intros ?; apply Hnotin; subst; constructor; assumption.
Qed.

(** Among routers whose route names leave the members of the router object
    alone: when no router is entered twice, the procedure at the end of the
    path is called with the stored lists of the routers on the path, outermost
    first, in front of its own.  That list is also what is left in the
    procedure object. *)
Lemma Router_call_walks visited :
  forall h this parts target p fuel input e,
  plain_store h ->
  walks h this parts visited target ->
  NoDup visited ->
  h !! target = Some (OProcedure p) ->
  (length parts <= fuel)%nat ->
  let p' := with_middlewares p (concat (map (middlewares_at h) visited)
                                  ++ p_middlewares p) in
  exists h',
    Router_call fuel h this (PathArr parts) input e
    = Some (fst (Procedure_call p' input e), h', snd (Procedure_call p' input e))
    /\ h' !! target = Some (OProcedure p').
Proof.
  induction visited as [|a visited IH];
    intros h this parts target p fuel input e Hplain Hw Hnd Ht Hfuel p'.
  - inversion Hw.
  - inversion Hw as [this0 first rs target0 H1 H2 H3
                    |this0 first rest rs child visited0 target0 H1 H2 H3];
      subst.
    + pose proof (Hplain _ _ H1) as Hpr.
      destruct (shape_router _ _ _ H1) as (r & Hthis & <-).
      destruct fuel as [|fuel]; [simpl in Hfuel; lia|].
      exists (<[target := OProcedure p']> h). split.
      * rewrite (Router_call_procedure h a r Hthis Hpr (PathArr [first]) input
                   e fuel target p H2 Ht eq_refl).
        unfold p', middlewares_at. simpl. rewrite Hthis, app_nil_r. reflexivity.
      * rewrite lookup_insert_eq. reflexivity.
    + pose proof (Hplain _ _ H1) as Hpr.
      destruct (shape_router _ _ _ H1) as (r & Hthis & <-).
      destruct (walks_head _ _ _ _ _ H3) as (crs & rest' & Hc & ->).
      pose proof (Hplain _ _ Hc) as Hpc.
      destruct (shape_router _ _ _ Hc) as (c & Hchild & <-).
      destruct fuel as [|fuel]; [simpl in Hfuel; lia|].
      rewrite (Router_call_router h a r Hthis Hpr (PathArr (first :: rest))
                 input e fuel child c H2 Hchild Hpc).
      simpl tail.
      set (c' := mkRouter (routes c) (r_middlewares r ++ r_middlewares c)).
      set (h1 := <[child := ORouter c']> h).
      assert (Hs : same_shape h h1)
        by (eapply same_shape_insert; [exact Hchild | reflexivity]).
      assert (Hne : child <> target) by congruence.
      assert (Ht1 : h1 !! target = Some (OProcedure p))
        by (unfold h1; now rewrite lookup_insert_ne).
      apply NoDup_cons in Hnd as [Hfresh Hnd].
      destruct (IH h1 child rest target p fuel input e
                  (plain_store_same_shape _ _ Hs Hplain)
                  (walks_same_shape _ _ _ _ _ _ Hs H3) Hnd Ht1
                  ltac:(simpl in Hfuel; lia)) as (h' & Hcall & Ht').
      exists h'. rewrite Hcall, Ht'.
      assert (Heq : concat (map (middlewares_at h1) (child :: rest'))
                    = concat (map (middlewares_at h) (a :: child :: rest'))).
      { apply NoDup_cons in Hnd as [Hnotin _]. simpl.
        unfold h1 at 2. rewrite map_middlewares_at_insert by exact Hnotin.
        assert (H1c : middlewares_at h1 child
                      = (middlewares_at h a ++ middlewares_at h child)%list).
        { unfold middlewares_at, h1.
          now rewrite lookup_insert_eq, Hthis, Hchild. }
        now rewrite H1c, <- app_assoc. }
      unfold p'. rewrite <- Heq. split; reflexivity.
Qed.

(** On such a path, among such routers, with transparent middleware and a
    handler that returns [v], the call enters the middleware of the outermost router, in
    registration order, then those of each nested router, then the
    procedure's own, once each, and then the handler. *)
Lemma Router_call_first_call h this parts visited target p fuel input
    parsedInput v e :
  plain_store h ->
  walks h this parts visited target ->
  NoDup visited ->
  h !! target = Some (OProcedure p) ->
  (length parts <= fuel)%nat ->
  inputSchema p input = Resolved parsedInput ->
  (forall c, settles (handler p c parsedInput) (Resolved v)) ->
  Forall (fun a => Forall (transparent_on parsedInput) (middlewares_at h a))
         (visited ++ [target]) ->
  exists h' e',
    Router_call fuel h this (PathArr parts) input e
    = Some (outputSchema p v, h', e')
    /\ trace e' = (trace e ++ EParseInput
                      :: names (concat (map (middlewares_at h) visited)
                                  ++ p_middlewares p)
                      ++ [EHandler; EParseOutput])%list.
Proof.
  intros Hplain Hw Hnd Ht Hfuel Hin Hh Hall.
  destruct (Router_call_walks visited h this parts target p fuel input e
              Hplain Hw Hnd Ht Hfuel) as (h' & Hcall & _).
  set (p' := with_middlewares p (concat (map (middlewares_at h) visited)
                                   ++ p_middlewares p)) in *.
  assert (Hmws : Forall (transparent_on parsedInput) (p_middlewares p')).
  { unfold p'. simpl. apply Forall_app in Hall as [Hv Htg]. apply Forall_app. split.
    - clear -Hv. induction Hv as [|a l Ha _ IH]; simpl; [constructor|].
      apply Forall_app. now split.
    - apply Forall_cons in Htg as [Htg _]. unfold middlewares_at in Htg.
      now rewrite Ht in Htg. }
  destruct (Procedure_call_transparent p' input parsedInput v e Hin Hh Hmws)
    as (e' & Hp & Htr).
  exists h', e'. rewrite Hcall, Hp. split; [reflexivity | exact Htr].
Qed.

(** * Further properties *)

(** ** Splitting and joining *)

Lemma split_append sep s1 s2 :
  split sep (s1 +:+ String sep s2) = (split sep s1 ++ split sep s2)%list.
Proof.
  induction s1 as [|c s1 IH]; simpl.
  - now rewrite Ascii.eqb_refl.
  - rewrite IH. destruct (Ascii.eqb c sep); [reflexivity|].
    pose proof (split_nonempty sep s1) as Hne.
    destruct (split sep s1) as [|seg segs]; [contradiction | reflexivity].
Qed.

(** Splitting a joined list splits every element. *)
Lemma split_join_concat sep parts :
  parts <> [] ->
  split sep (join (String sep "") parts) = concat (map (split sep) parts).
Proof.
  induction parts as [|x parts IH]; intros Hne; [contradiction|].
  destruct parts as [|y parts].
  - simpl. now rewrite app_nil_r.
  - change (join (String sep "") (x :: y :: parts))
      with (x +:+ String sep (join (String sep "") (y :: parts))).
    rewrite split_append, IH by discriminate. reflexivity.
Qed.

Lemma split_without sep s : has_char sep s = false -> split sep s = [s].
Proof.
  induction s as [|c s IH]; simpl; [reflexivity|].
  intros H. apply orb_false_iff in H as [Hc Hs].
  now rewrite Hc, IH.
Qed.

(** Splitting what was joined from segments free of the separator gives the
    segments back. *)
Lemma split_join sep parts :
  parts <> [] ->
  Forall (fun s => has_char sep s = false) parts ->
  split sep (join (String sep "") parts) = parts.
Proof.
  intros Hne Hall. rewrite split_join_concat by exact Hne.
  clear Hne. induction Hall as [|s parts Hs _ IH]; simpl; [reflexivity|].
  now rewrite split_without, IH.
Qed.

Lemma prefix_append s1 s2 :
  String.prefix s1 s2 = true -> exists rest, s2 = s1 +:+ rest.
Proof.
  revert s2. induction s1 as [|c s1 IH]; intros s2.
  - intros _. now exists s2.
  - destruct s2 as [|c' s2]; simpl; [discriminate|].
    destruct (ascii_dec c c') as [->|]; [|discriminate].
    intros H. destruct (IH _ H) as (rest & ->). now exists rest.
Qed.

(** ** Paths as strings, arrays and URLs *)

(** On a router whose route names leave the members of the router object
    alone, the not-found error of a string path names the path as it was
    given. *)
Theorem Router_call_not_found_names_path h this r s fuel input e :
  h !! this = Some (ORouter r) ->
  plain r ->
  routes r !! key_of (head (split "." s)) = None ->
  inherited (key_of (head (split "." s))) = false ->
  Router_call (S fuel) h this (PathStr s) input e
  = Some (Rejected (RPCError 404 ("Route '" +:+ s +:+ "' not found") VUndefined),
          h, e).
Proof.
  intros Hthis Hplain Hown Hinh.
  rewrite (Router_call_not_found h this r Hthis Hplain (PathStr s) input e fuel
             Hown Hinh).
  unfold not_found, parts_of.
  now rewrite (join_split "." s).
Qed.

Lemma Router_call_not_found_names_path_witness :
  Router_call 1 h_test 1%nat (PathStr "users..get.") hello env0
  = Some (Rejected (RPCError 404 "Route 'users..get.' not found" VUndefined),
          h_test, env0).
Proof.
  refine (Router_call_not_found_names_path h_test 1%nat
            (createRouter {[ "echo" := 2%nat ]}) "users..get." 0 hello env0
            _ _ _ _); try reflexivity.
  repeat split.
Defined.

(** A path given as a string of segments joined by dots is dispatched as
    the array of these segments, when no segment holds a dot. *)
Theorem Router_call_string_as_array fuel h this segments input e :
  segments <> [] ->
  Forall (fun s => has_char "." s = false) segments ->
  Router_call fuel h this (PathStr (join "." segments)) input e
  = Router_call fuel h this (PathArr segments) input e.
Proof.
  intros Hne Hall. rewrite Router_call_parts. unfold parts_of.
  now rewrite (split_join "." segments Hne Hall).
Qed.

Lemma Router_call_string_as_array_witness :
  Router_call 3 h_nested 1%nat (PathStr "v1.get") VNull env0
  = Router_call 3 h_nested 1%nat (PathArr ["v1"; "get"]) VNull env0.
Proof.
  refine (Router_call_string_as_array 3 h_nested 1%nat ["v1"; "get"] VNull env0
            _ _).
  - discriminate.
  - repeat constructor.
Defined.

(** The transport turns the URL path [/rpc/s1/.../sn] into the segments
    [s1], ..., [sn], each split again at its dots: in the part of the URL
    after the prefix, a dot separates segments as a slash does. *)
Theorem dispatch_path_segments pathname :
  String.prefix "/rpc/" pathname = true ->
  parts_of (PathStr (dispatch_path pathname))
  = concat (map (split ".") (skipn 2 (split "/" pathname))).
Proof.
  intros Hp. destruct (prefix_append _ _ Hp) as (rest & ->).
  unfold parts_of, dispatch_path.
  change (split "/" ("/rpc/" +:+ rest)) with ("" :: "rpc" :: split "/" rest).
  cbn [skipn].
  apply split_join_concat. apply split_nonempty.
Qed.

Lemma dispatch_path_segments_witness :
  parts_of (PathStr (dispatch_path "/rpc/v1/users.profile/get"))
  = ["v1"; "users"; "profile"; "get"].
Proof.
  rewrite (dispatch_path_segments "/rpc/v1/users.profile/get" eq_refl).
  reflexivity.
Defined.

(** ** What [Router.call] changes, and that it settles *)

(** Whatever the path and however the call settles, it leaves every object
    of the store in place with its kind, routes, schemas and handler; a
    stored middleware list is changed only by middleware put in front of
    it. *)
Theorem Router_call_frame fuel :
  forall h this path input e o h' e',
  Router_call fuel h this path input e = Some (o, h', e') -> frame h h'.
Proof. exact (Router_call_grows fuel). Qed.

Lemma Router_call_frame_witness :
  frame h_nested
        (<[3%nat := OProcedure
                      (mkProcedure any_schema any_schema ok_handler
                         [passthrough "A"; passthrough "B"; passthrough "C"])]>
           (<[2%nat := ORouter (mkRouter {[ "get" := 3%nat ]}
                                  [passthrough "A"; passthrough "B"])]>
              h_nested)).
Proof.
  refine (Router_call_frame 3 h_nested 1%nat (PathStr "v1.get") VNull env0
            (Resolved (VStr "ok")) _
            (mkEnv (VObj [])
                   []
                   [EParseInput; EMiddleware "A"; EMiddleware "B";
                    EMiddleware "C"; EHandler; EParseOutput]) _).
  reflexivity.
Defined.

Lemma closed_same_shape h h' : same_shape h h' -> closed h -> closed h'.
Proof.
  intros Hs Hc a rs key target Ha Hk. rewrite <- (Hs target).
  eapply Hc; [rewrite (Hs a); exact Ha | exact Hk].
Qed.

Lemma no_undefined_route_same_shape h h' :
  same_shape h h' -> no_undefined_route h -> no_undefined_route h'.
Proof.
  intros Hs Hn a rs Ha. eapply Hn. rewrite (Hs a). exact Ha.
Qed.

Lemma shape_of_router h a r :
  h !! a = Some (ORouter r) -> shape h a = Some (KRouter (routes r)).
Proof. intros Ha. unfold shape. now rewrite Ha. Qed.

Lemma is_Some_shape h a : is_Some (shape h a) -> is_Some (h !! a).
Proof. unfold shape. destruct (h !! a); [eauto | intros [k Hk]; discriminate]. Qed.

(** In a closed store every lookup of a segment gives an answer, and a
    reference it gives is to an object of the store. *)
Lemma lookup_route_closed h this r first :
  closed h -> h !! this = Some (ORouter r) ->
  exists t, lookup_route h r first = Some t
    /\ match t with TRef target => is_Some (h !! target) | _ => True end.
Proof.
  intros Hc Hthis. pose proof (shape_of_router _ _ _ Hthis) as Hs.
  unfold lookup_route.
  destruct (routes r !! "routes") as [a|] eqn:Hroutes.
  - destruct (is_Some_shape _ _ (Hc _ _ _ _ Hs Hroutes)) as (o & Ho).
    rewrite Ho. destruct o as [p|c].
    + eexists. split; [reflexivity|].
      unfold member_of. now destruct (existsb _ _).
    + eexists. split; [reflexivity|].
      destruct (routes c !! key_of first) as [b|] eqn:Hb.
      * apply is_Some_shape.
        exact (Hc _ _ _ _ (shape_of_router _ _ _ Ho) Hb).
      * unfold member_of. now destruct (existsb _ _).
  - eexists. split; [reflexivity|]. unfold routes_get.
    destruct (routes r !! key_of first) as [b|] eqn:Hb.
    + apply is_Some_shape. exact (Hc _ _ _ _ Hs Hb).
    + now destruct (inherited _).
Qed.

(** With no segment left and no route named ["undefined"], the lookup finds
    nothing. *)
Lemma lookup_route_undefined h this r :
  closed h -> no_undefined_route h -> h !! this = Some (ORouter r) ->
  lookup_route h r None = Some TUndefined.
Proof.
  intros Hc Hn Hthis. pose proof (shape_of_router _ _ _ Hthis) as Hs.
  unfold lookup_route.
  destruct (routes r !! "routes") as [a|] eqn:Hroutes.
  - destruct (is_Some_shape _ _ (Hc _ _ _ _ Hs Hroutes)) as (o & Ho).
    rewrite Ho. destruct o as [p|c]; [reflexivity|].
    simpl. now rewrite (Hn _ _ (shape_of_router _ _ _ Ho)).
  - unfold routes_get. simpl. now rewrite (Hn _ _ Hs).
Qed.

Lemma settles_in parts :
  forall h this r fuel input e,
  closed h -> no_undefined_route h ->
  h !! this = Some (ORouter r) ->
  (length parts < fuel)%nat ->
  is_Some (Router_call fuel h this (PathArr parts) input e).
Proof.
  induction parts as [|first rest IH];
    intros h this r fuel input e Hc Hn Hthis Hfuel;
    (destruct fuel as [|fuel]; [simpl in Hfuel; lia|]);
    simpl; rewrite Hthis.
  - rewrite (lookup_route_undefined h this r Hc Hn Hthis). eauto.
  - destruct (lookup_route_closed h this r (Some first) Hc Hthis)
      as (t & -> & Ht).
    destruct t as [|target|]; eauto.
    destruct Ht as (o & Ho). rewrite Ho. destruct o as [p|c].
    + destruct rest; [|eauto].
      destruct (this_middlewares r); [|eauto].
      destruct (Procedure_call _ input e). eauto.
    + destruct (this_middlewares c) as [cmws|b]; [|eauto].
      destruct (this_middlewares r) as [mws|b]; [|eauto].
      destruct (call_shadowed c); [eauto|].
      set (h1 := <[target := ORouter _]> h).
      assert (Hs : same_shape h h1)
        by (eapply same_shape_insert; [exact Ho | reflexivity]).
      eapply (IH h1 target).
      * eapply closed_same_shape; eassumption.
      * eapply no_undefined_route_same_shape; eassumption.
      * unfold h1. apply lookup_insert_eq.
      * simpl in Hfuel. lia.
Qed.

(** In a store whose routes all refer to objects and in which no route is
    named ["undefined"], a call on a router settles for every path, with any
    fuel above the number of segments. *)
Theorem Router_call_settles h this r path fuel input e :
  closed h -> no_undefined_route h ->
  h !! this = Some (ORouter r) ->
  (length (parts_of path) < fuel)%nat ->
  exists o h' e', Router_call fuel h this path input e = Some (o, h', e').
Proof.
  intros Hc Hn Hthis Hfuel.
  destruct (settles_in (parts_of path) h this r fuel input e Hc Hn Hthis Hfuel)
    as ([[o h'] e'] & Hcall).
  exists o, h', e'. now rewrite Router_call_parts.
Qed.

Lemma h_test_closed : closed h_test.
Proof.
  intros a rs key target Ha Hk. unfold shape, h_test in Ha.
  destruct (decide (a = 1%nat)) as [->|Hne1].
  - rewrite lookup_insert_eq in Ha. injection Ha as <-.
    apply lookup_singleton_Some in Hk as [_ <-]. now eexists.
  - rewrite lookup_insert_ne in Ha by congruence.
    destruct (decide (a = 2%nat)) as [->|Hne2].
    + rewrite lookup_insert_eq in Ha. discriminate.
    + rewrite lookup_insert_ne, lookup_empty in Ha by congruence. discriminate.
Defined.

Lemma h_test_no_undefined_route : no_undefined_route h_test.
Proof.
  intros a rs Ha. unfold shape, h_test in Ha.
  destruct (decide (a = 1%nat)) as [->|Hne1].
  - rewrite lookup_insert_eq in Ha. now injection Ha as <-.
  - rewrite lookup_insert_ne in Ha by congruence.
    destruct (decide (a = 2%nat)) as [->|Hne2].
    + rewrite lookup_insert_eq in Ha. discriminate.
    + rewrite lookup_insert_ne, lookup_empty in Ha by congruence. discriminate.
Defined.

Lemma Router_call_settles_witness :
  exists o h' e',
    Router_call 4 h_test 1%nat (PathStr "echo.a.b") hello env0 = Some (o, h', e').
Proof.
  refine (Router_call_settles h_test 1%nat
            (createRouter {[ "echo" := 2%nat ]}) (PathStr "echo.a.b") 4 hello
            env0 h_test_closed h_test_no_undefined_route _ _).
  - reflexivity.
  - simpl. lia.
Defined.

(** ** Paths that do not end at a procedure *)






(** An empty array path on a router that has a route named ["undefined"]
    naming a procedure (and whose route names leave the members of the
    router object alone) calls that procedure, with the router's middleware
    in front of the procedure's own. *)
Theorem Router_call_empty_array h this r target p fuel input e :
  h !! this = Some (ORouter r) ->
  plain r ->
  routes r !! "undefined" = Some target ->
  h !! target = Some (OProcedure p) ->
  Router_call (S fuel) h this (PathArr []) input e
  = let p' := with_middlewares p (r_middlewares r ++ p_middlewares p) in
    let '(o, e') := Procedure_call p' input e in
    Some (o, <[target := OProcedure p']> h, e').
Proof.
  intros Hthis Hplain Hroute Htarget.
  rewrite (Router_call_procedure h this r Hthis Hplain (PathArr []) input e fuel
             target p Hroute Htarget eq_refl).
  simpl. now destruct (Procedure_call _ input e).
Qed.

(** A call that fails below the first level has already put the parent's
    middleware in front of the stored list of the router it entered (both
    routers with route names that leave the members of the router object
    alone). *)
Theorem Router_call_failure_keeps_merge h this r first child c second rest
    fuel input e :
  h !! this = Some (ORouter r) ->
  plain r ->
  routes r !! first = Some child ->
  h !! child = Some (ORouter c) ->
  plain c ->
  routes c !! second = None ->
  inherited second = false ->
  Router_call (S (S fuel)) h this (PathArr (first :: second :: rest)) input e
  = Some (Rejected (not_found (second :: rest)),
          <[child := ORouter (mkRouter (routes c)
                                (r_middlewares r ++ r_middlewares c))]> h,
          e).
Proof.
  intros Hthis Hplain Hroute Hchild Hpc Hown Hinh.
  rewrite (Router_call_router h this r Hthis Hplain
             (PathArr (first :: second :: rest))
             input e (S fuel) child c Hroute Hchild Hpc).
  apply Router_call_not_found with
    (r := mkRouter (routes c) (r_middlewares r ++ r_middlewares c));
    [apply lookup_insert_eq | exact Hpc | exact Hown | exact Hinh].
Qed.

Lemma Router_call_failure_keeps_merge_witness :
  stored_after (Router_call 2 h_nested 1%nat (PathArr ["v1"; "put"]) VNull env0)
               2%nat
  = Some ["A"; "B"].
Proof.
  rewrite (Router_call_failure_keeps_merge h_nested 1%nat
             (mkRouter {[ "v1" := 2%nat ]} [passthrough "A"]) "v1" 2%nat
             (mkRouter {[ "get" := 3%nat ]} [passthrough "B"]) "put" [] 0
             VNull env0 eq_refl).
  - reflexivity.
  - repeat split.
  - reflexivity.
  - reflexivity.
  - repeat split.
  - reflexivity.
  - reflexivity.
Defined.

Lemma Router_call_empty_array_witness :
  observe (Router_call 1 h_undefined 1%nat (PathArr []) hello env0)
  = Some (Resolved (VObj [("result", VStr "Echo: Hello World")]),
          [EParseInput; EHandler; EParseOutput]).
Proof.
  rewrite (Router_call_empty_array h_undefined 1%nat
             (createRouter {[ "undefined" := 2%nat ]}) 2%nat echo 0 hello env0
             eq_refl).
  - reflexivity.
  - repeat split.
  - reflexivity.
  - reflexivity.
Defined.

(** ** Registration with [use] *)

Lemma Router_uses_lookup mws :
  forall h this r,
  h !! this = Some (ORouter r) ->
  plain r ->
  exists h',
    Router_uses h this mws = Some (inr h')
    /\ h' !! this
       = Some (ORouter (mkRouter (routes r) (r_middlewares r ++ mws)))
    /\ forall a, a <> this -> h' !! a = h !! a.
Proof.
  induction mws as [|mw mws IH]; intros h this r Hthis Hplain; simpl.
  - exists h. rewrite app_nil_r. split; [reflexivity|].
    split; [now destruct r | reflexivity].
  - unfold invoke_use. rewrite Hthis, (plain_use_shadowed _ Hplain).
    rewrite (Router_use_appends h this r mw Hthis (proj1 (proj2 Hplain))).
    set (r1 := mkRouter (routes r) (r_middlewares r ++ [mw])).
    destruct (IH (<[this := ORouter r1]> h) this r1
                (lookup_insert_eq _ _ _) Hplain) as (h' & Hu & Hl & Ho).
    exists h'. split; [exact Hu|]. split.
    + rewrite Hl. simpl. now rewrite <- app_assoc.
    + intros a Hne. rewrite (Ho a Hne). now apply lookup_insert_ne.
Qed.

(** On a router whose route names leave the members of the router object
    alone, successive [use] calls succeed, and the middleware they register
    are stored after the ones the router held, in the order of the calls; the
    routes of the router and every other object of the store are as they
    were. *)
Theorem Router_uses_in_order h this r mws :
  h !! this = Some (ORouter r) ->
  plain r ->
  exists h',
    Router_uses h this mws = Some (inr h')
    /\ h' !! this
       = Some (ORouter (mkRouter (routes r) (r_middlewares r ++ mws)))
    /\ forall a, a <> this -> h' !! a = h !! a.
Proof. apply Router_uses_lookup. Qed.

Lemma Router_uses_in_order_witness :
  exists h',
    Router_uses h_echo 1%nat [passthrough "B"; passthrough "C"]
    = Some (inr h')
    /\ h' !! 1%nat
       = Some (ORouter (mkRouter {[ "echo" := 2%nat ]}
                          ([passthrough "A"]
                             ++ [passthrough "B"; passthrough "C"])))
    /\ forall a, a <> 1%nat -> h' !! a = h_echo !! a.
Proof.
  refine (Router_uses_in_order h_echo 1%nat
            (mkRouter {[ "echo" := 2%nat ]} [passthrough "A"])
            [passthrough "B"; passthrough "C"] eq_refl _).
  repeat split.
Defined.

(** After [use], on such a router, a call of a route that names a procedure
    runs the procedure with the router's earlier middleware, then the ones
    just registered, then the procedure's own. *)
Theorem Router_uses_then_call h this r mws first target p fuel input e :
  h !! this = Some (ORouter r) ->
  plain r ->
  routes r !! first = Some target ->
  h !! target = Some (OProcedure p) ->
  exists h1,
    Router_uses h this mws = Some (inr h1)
    /\ invoke_call (S fuel) h1 this (PathArr [first]) input e
       = let p' := with_middlewares p
                     ((r_middlewares r ++ mws) ++ p_middlewares p) in
         let '(o, e') := Procedure_call p' input e in
         Some (o, <[target := OProcedure p']> h1, e').
Proof.
  intros Hthis Hplain Hroute Htarget.
  destruct (Router_uses_lookup mws h this r Hthis Hplain) as (h1 & Hu & Hl & Ho).
  exists h1. split; [exact Hu|].
  assert (Hne : target <> this) by congruence.
  unfold invoke_call. rewrite Hl.
  rewrite (plain_call_shadowed (mkRouter (routes r) (r_middlewares r ++ mws))
             Hplain).
  rewrite (Router_call_procedure _ this _ Hl Hplain (PathArr [first]) input e
             fuel target p Hroute (eq_trans (Ho target Hne) Htarget) eq_refl).
  simpl. now destruct (Procedure_call _ input e).
Qed.

Lemma Router_uses_then_call_witness :
  exists h1,
    Router_uses h_test 1%nat [passthrough "A"; passthrough "B"]
    = Some (inr h1)
    /\ observe (invoke_call 1 h1 1%nat (PathArr ["echo"]) hello env0)
       = Some (Resolved (VObj [("result", VStr "Echo: Hello World")]),
               [EParseInput; EMiddleware "A"; EMiddleware "B"; EHandler;
                EParseOutput]).
Proof.
  destruct (Router_uses_then_call h_test 1%nat
              (createRouter {[ "echo" := 2%nat ]})
              [passthrough "A"; passthrough "B"] "echo" 2%nat echo 0 hello env0
              eq_refl ltac:(repeat split) eq_refl eq_refl) as (h1 & Hu & Hc).
  exists h1. split; [exact Hu|]. rewrite Hc. reflexivity.
Defined.

(** ** Witnesses for the accumulation and for the first call *)

Lemma call_times_accumulates_witness :
  exists rs h',
    call_times 3 1 h_echo 1%nat (PathArr ["echo"]) hello (VObj []) = Some (rs, h')
    /\ length rs = 3%nat
    /\ h' !! 1%nat
       = Some (ORouter (mkRouter {[ "echo" := 2%nat ]} [passthrough "A"]))
    /\ h' !! 2%nat
       = Some (OProcedure
                 (with_middlewares echo
                    (copies 3 [passthrough "A"] ++ []))).
Proof.
  refine (call_times_accumulates 1%nat 2%nat
            (mkRouter {[ "echo" := 2%nat ]} [passthrough "A"]) "echo" hello
            (VObj []) 0 _ _ 3 h_echo echo _ _); try reflexivity.
  repeat split.
Defined.

Lemma call_times_traces_witness :
  exists rs h',
    call_times 3 1 h_echo 1%nat (PathArr ["echo"]) hello (VObj []) = Some (rs, h')
    /\ forall k, (k < 3)%nat ->
         nth_error rs k
         = Some (Resolved (VObj [("result", VStr "Echo: Hello World")]),
                 (EParseInput
                    :: names (copies (S k) [passthrough "A"] ++ [])
                    ++ [EHandler; EParseOutput])%list).
Proof.
  refine (call_times_traces 1%nat 2%nat
            (mkRouter {[ "echo" := 2%nat ]} [passthrough "A"]) "echo" hello
            (VObj []) 0 _ _ hello (VObj [("result", VStr "Echo: Hello World")])
            3 h_echo echo _ _ _ _ _ _).
  - reflexivity.
  - repeat split.
  - reflexivity.
  - reflexivity.
  - reflexivity.
  - intros c'. apply settles_Ret.
  - repeat constructor. intros o. destruct o; constructor.
  - constructor.
Defined.

Lemma Router_call_first_call_witness :
  exists h' e',
    Router_call 2 h_nested 1%nat (PathArr ["v1"; "get"]) VNull env0
    = Some (Resolved (VStr "ok"), h', e')
    /\ trace e' = [EParseInput; EMiddleware "A"; EMiddleware "B";
                   EMiddleware "C"; EHandler; EParseOutput].
Proof.
  refine (Router_call_first_call h_nested 1%nat ["v1"; "get"] [1%nat; 2%nat]
            3%nat (mkProcedure any_schema any_schema ok_handler [passthrough "C"])
            2 VNull VNull (VStr "ok") env0 h_nested_plain _ _ _ _ _ _ _).
  - eapply walks_router with (child := 2%nat); [reflexivity | reflexivity |].
    eapply walks_procedure; reflexivity.
  - apply (bool_decide_unpack _). reflexivity.
  - reflexivity.
  - simpl. lia.
  - reflexivity.
  - intros c. apply settles_Ret.
  - repeat constructor; intros o; destruct o; constructor.
Defined.

(** ** [Procedure.call]: what no middleware can change *)

(** Running a middleware adds the traces of its calls of [next()], one
    after the other, and nothing else. *)
Lemma run_runs (L : list Event -> Prop) (next : Thunk) :
  (forall e, exists t, trace (snd (next e)) = (trace e ++ t)%list /\ L t) ->
  forall (p : Prog unit) e,
  exists runs,
    Forall L runs
    /\ trace (snd (run p (fun _ => next) e)) = (trace e ++ concat runs)%list.
Proof.
  intros Hnext.
  induction p as [v|x|key value k IH|code k IH|k IH|c k IH|n k IH];
    intros e; simpl.
  - exists []. split; [constructor | now rewrite app_nil_r].
  - exists []. split; [constructor | now rewrite app_nil_r].
  - apply (IH (sink_call (CSetHeader key value) e)).
  - apply (IH (sink_call (CStatus code) e)).
  - apply IH.
  - apply (IH (set_ctx c e)).
  - destruct (Hnext e) as (t & Ht & HL).
    destruct (next e) as [o e1]. simpl in Ht.
    destruct (IH o e1) as (runs & Hruns & Htr).
    exists (t :: runs). split; [now constructor|].
    rewrite Htr, Ht. simpl. now rewrite app_assoc.
Qed.

Lemma compose_traces mws hd parsedInput :
  forall e, exists t,
    trace (snd (compose mws hd parsedInput e)) = (trace e ++ t)%list
    /\ chain_traces mws t.
Proof.
  unfold compose.
  induction mws as [|mw mws IH]; intros e; simpl.
  - exists [EHandler]. split; [|reflexivity].
    unfold call_handler. now rewrite run_handler_trace.
  - unfold wrap at 1.
    destruct (run_runs (chain_traces mws) _ IH
                (mw_body mw (ctx e) parsedInput)
                (log (EMiddleware (mw_name mw)) e)) as (runs & Hruns & Htr).
    exists (EMiddleware (mw_name mw) :: concat runs). split.
    + rewrite Htr, trace_log, <- app_assoc. reflexivity.
    + now exists runs.
Qed.

(** In a trace of the chain, every entry of the handler comes after an
    entry of each middleware, in list order. *)
Lemma chain_traces_before_handler mws :
  forall t t1 t2,
  chain_traces mws t ->
  t = (t1 ++ EHandler :: t2)%list ->
  sublist (names mws) t1.
Proof.
  induction mws as [|mw mws IH]; intros t t1 t2 Ht Heq; simpl in *.
  - apply sublist_nil_l.
  - destruct Ht as (runs & Hruns & ->).
    destruct t1 as [|ev t1]; [discriminate|].
    injection Heq as <- Heq. apply sublist_skip.
    revert t1 Heq. induction Hruns as [|run runs Hrun _ IHruns]; intros t1 Heq;
      simpl in Heq.
    + destruct t1; discriminate.
    + apply app_eq_app in Heq as (l & [[-> Hl]|[-> Hl]]).
      * destruct l as [|ev l].
        -- simpl in Hl. rewrite <- (app_nil_r t1).
           apply sublist_inserts_l. apply IHruns. now rewrite <- Hl.
        -- injection Hl as <- Hl. now apply (IH _ t1 l Hrun).
      * apply sublist_inserts_l. now apply IHruns.
Qed.

(** Whatever the middleware do, each time the handler is entered the input
    has been parsed and every middleware of the stored list has been
    entered before, in list order: the handler cannot be reached around a
    middleware. *)
Theorem handler_behind_every_middleware (p : Procedure) input e :
  exists t,
    trace (snd (Procedure_call p input e)) = (trace e ++ t)%list
    /\ forall t1 t2,
         t = (t1 ++ EHandler :: t2)%list ->
         sublist (EParseInput :: names (p_middlewares p)) t1.
Proof.
  unfold Procedure_call.
  destruct (inputSchema p input) as [parsedInput|x].
  - destruct (compose_traces (p_middlewares p) (handler p) parsedInput
                (log EParseInput e)) as (tc & Htc & Hchain).
    destruct (compose (p_middlewares p) (handler p) parsedInput
                (log EParseInput e)) as [[result|x] e2]; simpl in *.
    + exists (EParseInput :: tc ++ [EParseOutput])%list. split.
      * rewrite Htc. simpl. now rewrite <- !app_assoc.
      * intros t1 t2 Heq. destruct t1 as [|ev t1]; [discriminate|].
        injection Heq as <- Heq. apply sublist_skip.
        apply app_eq_app in Heq as (l & [[-> Hl]|[-> Hl]]).
        -- destruct l as [|ev l]; [discriminate|].
           injection Hl as <- Hl.
           now apply (chain_traces_before_handler _ _ t1 l Hchain).
        -- destruct l as [|ev [|ev' l]]; discriminate.
    + exists (EParseInput :: tc). split.
      * rewrite Htc. simpl. now rewrite <- !app_assoc.
      * intros t1 t2 Heq. destruct t1 as [|ev t1]; [discriminate|].
        injection Heq as <- Heq. apply sublist_skip.
        now apply (chain_traces_before_handler _ _ t1 t2 Hchain).
  - exists [EParseInput]. split; [reflexivity|].
    intros t1 t2 Heq. destruct t1 as [|ev [|ev' t1]]; discriminate.
Qed.

(** ** [Procedure.call]: calling [next()] again, and the context *)

(** One run of a chain of transparent middleware around a handler that
    returns [v]. *)
Lemma chain_run parsedInput mws hd v :
  Forall (transparent_on parsedInput) mws ->
  (forall c, settles (hd c parsedInput) (Resolved v)) ->
  forall e, exists e',
    fold_right (wrap parsedInput) (call_handler hd parsedInput) mws e
    = (Resolved v, e')
    /\ trace e' = (trace e ++ names mws ++ [EHandler])%list.
Proof.
  intros Hmws Hh e.
  destruct (chain_transparent _ _ Hmws (call_handler hd parsedInput) e)
    as (e1 & Ht1 & Hn).
  destruct (call_handler_settles _ _ _ Hh e1) as (e' & Hc & Ht').
  destruct (Hn _ _ Hc) as (e2 & Hf & Ht2).
  exists e2. split; [exact Hf|]. now rewrite Ht2, Ht', Ht1, <- app_assoc.
Qed.

(** [next] can be called again: a middleware that awaits [next()] and then
    returns [next()] runs everything it encloses twice, the handler
    included. *)
Theorem Procedure_call_next_twice (p : Procedure) input parsedInput name rest
    v e :
  inputSchema p input = Resolved parsedInput ->
  p_middlewares p = twice name :: rest ->
  Forall (transparent_on parsedInput) rest ->
  (forall c, settles (handler p c parsedInput) (Resolved v)) ->
  exists e', Procedure_call p input e = (outputSchema p v, e')
    /\ trace e' = (trace e ++ EParseInput :: EMiddleware name
                      :: (names rest ++ [EHandler])
                      ++ (names rest ++ [EHandler])
                      ++ [EParseOutput])%list.
Proof.
  intros Hin Hmws Hrest Hh. unfold Procedure_call, compose.
  rewrite Hin, Hmws. simpl. unfold wrap at 1. simpl.
  destruct (chain_run parsedInput rest (handler p) v Hrest Hh
              (log (EMiddleware name) (log EParseInput e)))
    as (e1 & -> & Ht1).
  simpl.
  destruct (chain_run parsedInput rest (handler p) v Hrest Hh e1)
    as (e2 & -> & Ht2).
  simpl. exists (log EParseOutput e2). split; [reflexivity|].
  rewrite trace_log, Ht2, Ht1, !trace_log.
  rewrite <- !app_assoc. reflexivity.
Qed.

Lemma Procedure_call_next_twice_witness :
  exists e',
    Procedure_call (with_middlewares echo [twice "again"; passthrough "A"])
                   hello env0
    = (Resolved (VObj [("result", VStr "Echo: Hello World")]), e')
    /\ trace e' = [EParseInput; EMiddleware "again"; EMiddleware "A"; EHandler;
                   EMiddleware "A"; EHandler; EParseOutput].
Proof.
  refine (Procedure_call_next_twice
            (with_middlewares echo [twice "again"; passthrough "A"]) hello hello
            "again" [passthrough "A"]
            (VObj [("result", VStr "Echo: Hello World")]) env0 _ _ _ _).
  - reflexivity.
  - reflexivity.
  - repeat constructor. intros o. destruct o; constructor.
  - intros c. apply settles_Ret.
Defined.

Lemma passes_through_app parsedInput (inner : Step) pre post :
  forall e o e',
  passes_through parsedInput inner (pre ++ post) e o e' ->
  passes_through parsedInput (passes_through parsedInput inner post) pre e o e'.
Proof.
  induction pre as [|mw pre IH]; intros e o e' H; simpl in H.
  - now apply passes_nil.
  - inversion H as [|mw0 mws0 e0 e1 k o0 e2 e3 Harr Hpass Hfin]; subst.
    eapply passes_cons; [exact Harr | apply IH; exact Hpass | exact Hfin].
Qed.

Lemma passes_through_inner parsedInput (inner : Step) mws :
  forall e o e',
  passes_through parsedInput inner mws e o e' ->
  exists e1 e2, inner e1 o e2 /\ trace e1 = (trace e ++ names mws)%list.
Proof.
  induction 1 as [e o e' Hin|mw mws e e1 k o e2 e3 Harr _ IH Hfin].
  - exists e, e'. split; [exact Hin|]. simpl. now rewrite app_nil_r.
  - destruct IH as (ea & eb & Hin & Ht).
    destruct (run_arrives _ _ _ _ Harr) as [Ht1 _].
    exists ea, eb. split; [exact Hin|].
    rewrite Ht, Ht1, trace_log, <- app_assoc. reflexivity.
Qed.

(** The context is one object, shared by the middleware and the handler:
    in a call in which every middleware calls [next()] once and settles with
    its outcome and the handler returns [v], the handler is invoked with the
    context as the innermost middleware [mw] left it when it called
    [next()], whatever the context held when the call started; the call
    settles as the output schema does on [v]. *)
Theorem Procedure_call_context_reaches_handler (p : Procedure) input
    parsedInput pre mw v e e2 :
  inputSchema p input = Resolved parsedInput ->
  p_middlewares p = (pre ++ [mw])%list ->
  passes_through parsedInput (handler_step (handler p) parsedInput)
                 (p_middlewares p) (log EParseInput e) (Resolved v) e2 ->
  Procedure_call p input e = (outputSchema p v, log EParseOutput e2)
  /\ exists ea e1 k eb,
       trace ea = (trace e ++ EParseInput :: names pre)%list
       /\ arrives (mw_body mw (ctx ea) parsedInput)
                  (log (EMiddleware (mw_name mw)) ea) e1 k
       /\ run (handler p (ctx e1) parsedInput) no_next (log EHandler e1)
          = (Resolved v, eb).
Proof.
  intros Hin Hmws Hpass. split.
  - destruct (passes_through_handler _ _ _ _ _ _ Hpass) as (Hc & _).
    unfold Procedure_call. now rewrite Hin, Hc.
  - rewrite Hmws in Hpass. apply passes_through_app in Hpass.
    destruct (passes_through_inner _ _ _ _ _ _ Hpass) as (ea & eb & Hlast & Ht).
    inversion Hlast as [|mw0 mws0 e0 e1 k o0 e3 e4 Harr Hnil Hfin]; subst.
    inversion Hnil as [e0 o0 e5 Hh|]; subst.
    exists ea, e1, k, e3. split; [|split; [exact Harr | exact Hh]].
    rewrite Ht, trace_log, <- app_assoc. reflexivity.
Qed.

Lemma Procedure_call_context_reaches_handler_witness :
  Procedure_call profile VNull env0
  = (Resolved (VStr "ada"),
     log EParseOutput
       (mkEnv (VObj [("user", VStr "ada")]) []
              [EParseInput; EMiddleware "log"; EMiddleware "auth"; EHandler])).
Proof.
  refine (proj1 (Procedure_call_context_reaches_handler profile VNull VNull
                   [passthrough "log"]
                   (set_context "auth" (VObj [("user", VStr "ada")]))
                   (VStr "ada") env0 _ _ _ _)).
  - reflexivity.
  - reflexivity.
  - eapply passes_cons; [apply arrives_CallNext| |apply finishes_Ret].
    eapply passes_cons;
      [apply arrives_WriteCtx, arrives_CallNext| |apply finishes_Ret].
    apply passes_nil. reflexivity.
Defined.

(** ** The transport boundary: the gate, the body and unknown routes *)

Lemma forward_not_end calls body : ~ In (REnd body) (map forward calls).
Proof.
  intros H. apply in_map_iff in H as (c & Hc & _). destruct c; discriminate.
Qed.

(** A request that is not a POST under [/rpc/] is answered by the transport
    itself, with status 404 and the body
    [{ error: { code: 404, message: "Not Found" } }], without consulting the
    router or changing the store; no answer to a request that passes the
    gate has that body. *)
Theorem handle_request_gate fuel h router req :
  (outside_rpc req = true ->
   handle_request fuel h router req
   = Some ([RWriteHead 404 json_header; REnd not_found_body], h))
  /\ (outside_rpc req = false ->
      forall calls h',
      handle_request fuel h router req = Some (calls, h') ->
      ~ In (REnd not_found_body) calls).
Proof.
  unfold outside_rpc, handle_request. split.
  - intros ->. reflexivity.
  - intros ->. intros calls h'.
    destruct (dispatch fuel h router req) as [[[[result|err] h1] sc]|];
      [| |discriminate]; (destruct (accepted false sc); [|discriminate]);
      intros [= <- <-] Hin;
      apply in_app_or in Hin as [Hin|Hin];
      try (now apply forward_not_end in Hin).
    + unfold on_success in Hin. destruct (head_written sc); [destruct Hin|].
      destruct Hin as [Hin|[Hin|[]]]; discriminate.
    + unfold on_failure in Hin.
      destruct err as [code message payload|message|name message];
        match type of Hin with
        | In _ (if ?b then _ else _) => destruct b
        end; simpl in Hin; try contradiction;
        destruct Hin as [Hin|[Hin|[]]]; discriminate.
Qed.

Lemma handle_request_gate_witness :
  handle_request 0 h_echo 1%nat (mkRequest "GET" "/rpc/echo" (Resolved (VObj [])))
  = Some ([RWriteHead 404 json_header; REnd not_found_body], h_echo).
Proof.
  refine (proj1 (handle_request_gate 0 h_echo 1%nat
                   (mkRequest "GET" "/rpc/echo" (Resolved (VObj [])))) _).
  reflexivity.
Defined.

(** A body that cannot be read or parsed, and the body [null], are answered
    with status 500 and the message ["Internal server error"]; the router is
    not consulted and the store is as it was. *)
Theorem handle_request_bad_body fuel h router req :
  outside_rpc req = false ->
  (match req_json req with
   | Rejected x => instanceof_RPCError x = false
   | Resolved v => v = VNull
   end) ->
  handle_request fuel h router req
  = Some ([ RWriteHead 500 json_header;
            REnd (VObj [("error",
                    VObj [("code", VNum 500);
                          ("message", VStr "Internal server error");
                          ("payload", VNull)])]) ], h).
Proof.
  intros Hgate Hbody. unfold outside_rpc in Hgate.
  unfold handle_request, dispatch. rewrite Hgate.
  destruct (req_json req) as [v|x].
  - subst v. reflexivity.
  - destruct x; [discriminate | reflexivity | reflexivity].
Qed.

Lemma handle_request_bad_body_witness :
  handle_request 0 h_echo 1%nat
    (mkRequest "POST" "/rpc/echo"
               (Rejected (JsError "SyntaxError" "Unexpected token")))
  = Some ([ RWriteHead 500 json_header;
            REnd (VObj [("error",
                    VObj [("code", VNum 500);
                          ("message", VStr "Internal server error");
                          ("payload", VNull)])]) ], h_echo).
Proof.
  refine (handle_request_bad_body 0 h_echo 1%nat
            (mkRequest "POST" "/rpc/echo"
                       (Rejected (JsError "SyntaxError" "Unexpected token")))
            _ _); reflexivity.
Defined.

Lemma or_empty_object_idem context :
  or_empty_object (or_empty_object context) = or_empty_object context.
Proof.
  destruct context as [| |[|]|[| |]|[|]| |]; reflexivity.
Qed.

(** Of a body, only the [input] and [context] properties count, and a
    missing or falsy context counts as the empty object: the request is
    answered as the one whose body holds just these two. *)
Theorem handle_request_body_fields fuel h router req v input context :
  req_json req = Resolved v ->
  destructure v = inr (input, context) ->
  handle_request fuel h router req
  = handle_request fuel h router
      (mkRequest (req_method req) (req_pathname req)
         (Resolved (VObj [("input", input);
                          ("context", or_empty_object context)]))).
Proof.
  intros Hjson Hd. unfold handle_request, dispatch. simpl.
  rewrite Hjson, Hd. simpl. now rewrite or_empty_object_idem.
Qed.

Lemma handle_request_body_fields_witness :
  handle_request 2 h_test 1%nat (mkRequest "POST" "/rpc/echo" (Resolved (VNum 7)))
  = handle_request 2 h_test 1%nat
      (mkRequest "POST" "/rpc/echo"
         (Resolved (VObj [("input", VUndefined); ("context", VObj [])]))).
Proof.
  refine (handle_request_body_fields 2 h_test 1%nat
            (mkRequest "POST" "/rpc/echo" (Resolved (VNum 7))) (VNum 7)
            VUndefined VUndefined _ _); reflexivity.
Defined.

(** A POST under [/rpc/] whose first segment names no route of the root
    router (and no inherited property), the route names of the root router
    leaving the members of the router object alone, is answered with status
    404 and a message that holds the dotted dispatch path; the store is as
    it was. *)
Theorem handle_request_unknown_route fuel h router r req v input context :
  outside_rpc req = false ->
  req_json req = Resolved v ->
  destructure v = inr (input, context) ->
  h !! router = Some (ORouter r) ->
  plain r ->
  routes r !! key_of (head (split "." (dispatch_path (req_pathname req)))) = None ->
  inherited (key_of (head (split "." (dispatch_path (req_pathname req))))) = false ->
  handle_request (S fuel) h router req
  = Some ([ RWriteHead 404 json_header;
            REnd (VObj [("error",
                    VObj [("code", VNum 404);
                          ("message",
                           VStr ("Route '" +:+ dispatch_path (req_pathname req)
                                   +:+ "' not found"));
                          ("payload", VNull)])]) ], h).
Proof.
  intros Hgate Hjson Hd Hrouter Hplain Hown Hinh. unfold outside_rpc in Hgate.
  unfold handle_request, dispatch, invoke_call.
  rewrite Hgate, Hjson, Hd, Hrouter, (plain_call_shadowed _ Hplain).
  rewrite (Router_call_not_found h router r Hrouter Hplain
             (PathStr (dispatch_path (req_pathname req))) input
             (mkEnv (or_empty_object context) [] []) fuel Hown Hinh).
  unfold not_found, parts_of.
  now rewrite (join_split "." (dispatch_path (req_pathname req))).
Qed.

Lemma handle_request_unknown_route_witness :
  handle_request 1 h_echo 1%nat
    (mkRequest "POST" "/rpc/users/get" (Resolved (VObj [])))
  = Some ([ RWriteHead 404 json_header;
            REnd (VObj [("error",
                    VObj [("code", VNum 404);
                          ("message", VStr "Route 'users.get' not found");
                          ("payload", VNull)])]) ], h_echo).
Proof.
  refine (handle_request_unknown_route 0 h_echo 1%nat
            (mkRouter {[ "echo" := 2%nat ]} [passthrough "A"])
            (mkRequest "POST" "/rpc/users/get" (Resolved (VObj [])))
            (VObj []) VUndefined VUndefined _ _ _ _ _ _ _); try reflexivity.
  repeat split.
Defined.

(** ** The transport boundary: a response whose head is written *)

(** Once the sink's [status] has written the head of the response, or when
    the dispatch fails with a tagged error whose code [writeHead] does not
    accept, the listener makes no further call on the response: [setHeader]
    or [writeHead] throws, in the [catch] block too, and [res.end] is never
    called, whether the dispatch resolved or rejected. *)
Theorem handle_request_no_body fuel h router req o h' calls :
  outside_rpc req = false ->
  dispatch fuel h router req = Some (o, h', calls) ->
  accepted false calls = true ->
  head_written calls = true
  \/ (exists code message payload,
        o = Rejected (RPCError code message payload)
        /\ valid_status code = false) ->
  handle_request fuel h router req = Some (map forward calls, h')
  /\ forall body, ~ In (REnd body) (map forward calls).
Proof.
  intros Hgate Hd Hacc Hcase. unfold outside_rpc in Hgate.
  split; [|intros body; apply forward_not_end].
  unfold handle_request. rewrite Hgate, Hd, Hacc.
  destruct Hcase as [Hsent|(code & message & payload & -> & Hcode)].
  - rewrite Hsent. unfold on_success, on_failure.
    destruct o as [result|[code message payload|message|name message]];
      simpl; now rewrite app_nil_r.
  - unfold on_failure. rewrite Hcode, orb_true_r. now rewrite app_nil_r.
Qed.

Lemma handle_request_no_body_witness :
  handle_request 1 h_created 1%nat
    (mkRequest "POST" "/rpc/create" (Resolved (VObj [])))
  = Some ([RWriteHead 201 []],
          <[2%nat := OProcedure
                       (mkProcedure any_schema any_schema created_handler [])]>
            h_created).
Proof.
  refine (proj1 (handle_request_no_body 1 h_created 1%nat
                   (mkRequest "POST" "/rpc/create" (Resolved (VObj [])))
                   (Resolved (VStr "created")) _ [CStatus 201] _ _ _ _)).
  - reflexivity.
  - reflexivity.
  - reflexivity.
  - left. reflexivity.
Defined.

(** ** Routes named as members of the router object *)

(** The constructor copies the routes onto the router object, after its
    members [routes] and [middlewares] are set.  A route named [call] or
    [use] takes the place of the method: the call expression throws a
    [TypeError].  A route named [middlewares] takes the place of the array:
    [use] throws, and so does every call that reaches a procedure, before
    anything of the procedure has run.  The store is left as it was. *)
Theorem reserved_route_names h this r :
  h !! this = Some (ORouter r) ->
  (is_Some (routes r !! "call") ->
   forall fuel path input e,
     invoke_call fuel h this path input e = Some (Rejected type_error, h, e))
  /\ (is_Some (routes r !! "use") ->
      forall mw, invoke_use h this mw = Some (inl type_error))
  /\ (is_Some (routes r !! "middlewares") ->
      (forall mw, Router_use h this mw = Some (inl type_error))
      /\ forall fuel first target p input e,
           routes r !! "routes" = None ->
           routes r !! first = Some target ->
           h !! target = Some (OProcedure p) ->
           Router_call (S fuel) h this (PathArr [first]) input e
           = Some (Rejected type_error, h, e)).
Proof.
  intros Hthis. repeat apply conj.
  - intros [a Ha] fuel path input e. unfold invoke_call, call_shadowed.
    now rewrite Hthis, Ha.
  - intros [a Ha] mw. unfold invoke_use, use_shadowed. now rewrite Hthis, Ha.
  - intros [a Ha]. split.
    + intros mw. unfold Router_use, this_middlewares. now rewrite Hthis, Ha.
    + intros fuel first target p input e Hroutes Hfirst Htarget. simpl.
      rewrite Hthis. unfold lookup_route, routes_get, this_middlewares. simpl.
      now rewrite Hroutes, Hfirst, Htarget, Ha.
Qed.

Lemma reserved_route_names_witness :
  Router_use h_middlewares 1%nat (passthrough "A") = Some (inl type_error)
  /\ Router_call 1 h_middlewares 1%nat (PathArr ["echo"]) hello env0
     = Some (Rejected type_error, h_middlewares, env0).
Proof.
  destruct (reserved_route_names h_middlewares 1%nat
              (createRouter (<[ "middlewares" := 2%nat ]>
                               {[ "echo" := 2%nat ]})) eq_refl)
    as (_ & _ & Hm).
  destruct (Hm ltac:(now exists 2%nat)) as [Huse Hcall].
  split; [apply Huse|].
  apply (Hcall 0%nat "echo" 2%nat echo hello env0); reflexivity.
Defined.

(** A route named [routes] that is a Procedure takes the place of the
    routes of the router: no route of the router can be reached any more.
    Every path is answered from the properties of that procedure object,
    with code 400 when the first segment names one of them (or a property
    every object inherits) and with code 404 otherwise, and nothing runs. *)
Theorem Router_call_routes_procedure h this r a p fuel path input e :
  h !! this = Some (ORouter r) ->
  routes r !! "routes" = Some a ->
  h !! a = Some (OProcedure p) ->
  Router_call (S fuel) h this path input e
  = Some (Rejected (procedure_property (parts_of path)), h, e).
Proof.
  intros Hthis Hroutes Ha. simpl. rewrite Hthis. unfold lookup_route.
  rewrite Hroutes, Ha. unfold procedure_property, member_of.
  now destruct (existsb _ _).
Qed.

Lemma Router_call_routes_procedure_witness :
  Router_call 1 h_routes 1%nat (PathStr "routes") hello env0
  = Some (Rejected (RPCError 404 "Route 'routes' not found" VUndefined),
          h_routes, env0)
  /\ Router_call 1 h_routes 1%nat (PathStr "handler") hello env0
     = Some (Rejected (RPCError 400 "Invalid route at 'handler'" VUndefined),
             h_routes, env0).
Proof.
  split.
  - refine (Router_call_routes_procedure h_routes 1%nat
              (createRouter {[ "routes" := 2%nat ]}) 2%nat echo 0
              (PathStr "routes") hello env0 _ _ _); reflexivity.
  - exact (Router_call_routes_procedure h_routes 1%nat
             (createRouter {[ "routes" := 2%nat ]}) 2%nat echo 0
             (PathStr "handler") hello env0 eq_refl eq_refl eq_refl).
Defined.

(** On [createRouter({ routes: createRouter({ "": echo }) })] the empty
    path is looked up in the inner router, and the handler runs. *)
Example Router_call_routes_router :
  observe (Router_call 1 h_routes_router 1%nat (PathStr "") hello env0)
  = Some (Resolved (VObj [("result", VStr "Echo: Hello World")]),
          [EParseInput; EHandler; EParseOutput]).
Proof. vm_compute. reflexivity. Qed.
